(** * Median of two sorted arrays: a shallow embedding of
      [findMedianSortedArrays.py] and the properties of its partition search.

    The Python function receives two lists of numbers.  The lists are modelled
    as [list Z] (Python [int]s).  Up to its one division the function computes
    with ints and with floats that are not finite: the two sentinels
    [float('-inf')] and [float('inf')], and the nan that their sum gives; this
    is the type [num].  The division [/ 2] of an int is Python's true division
    of ints: it gives the binary64 float nearest to the exact quotient, ties
    to the even mantissa, and raises [OverflowError] when that float would not
    be finite.  A finite float is held by its exact rational value in the type
    [value] of what the function returns. *)

From Stdlib Require Import ZArith QArith Lia.
From Equations Require Import Equations.
From stdpp Require Import list sorting.

Local Open Scope Z_scope.

(** ** Numbers *)

(** An int, or a float that is not a finite number. *)
Inductive num : Type :=
| NegInf            (* float('-inf') *)
| Int (z : Z)       (* an int *)
| PosInf            (* float('inf') *)
| NaN.              (* the float nan *)

(** Python's [a <= b]; an int and an infinity are compared exactly. *)
Definition num_le (a b : num) : bool :=
  match a, b with
  | NaN, _ | _, NaN => false
  | NegInf, _ => true
  | _, PosInf => true
  | Int x, Int y => x <=? y
  | _, _ => false
  end.

(** Python's [a < b]. *)
Definition num_lt (a b : num) : bool :=
  match a, b with
  | NaN, _ | _, NaN => false
  | NegInf, NegInf => false
  | NegInf, _ => true
  | PosInf, _ => false
  | Int _, PosInf => true
  | Int x, Int y => x <? y
  | Int _, NegInf => false
  end.

(** Python's [a > b]. *)
Definition num_gt (a b : num) : bool := num_lt b a.

(** The builtin [max(a, b)]: the second argument replaces the first only
    when it compares greater. *)
Definition num_max (a b : num) : num := if num_gt b a then b else a.

(** The builtin [min(a, b)]: the second argument replaces the first only
    when it compares smaller. *)
Definition num_min (a b : num) : num := if num_lt b a then b else a.

(** An element of an input list as a value. *)
Definition of_int (x : Z) : num := Int x.

(** What the function can return: a [num], or a finite float, held by the
    rational number it stands for. *)
Inductive value : Type :=
| Plain (v : num)
| Finite (q : Q).

(** Python's [a == b] on returned values: numbers are compared by what they
    stand for, and nan equals nothing. *)
Definition value_eq (a b : value) : bool :=
  match a, b with
  | Plain NaN, _ | _, Plain NaN => false
  | Plain NegInf, Plain NegInf => true
  | Plain PosInf, Plain PosInf => true
  | Plain (Int x), Plain (Int y) => x =? y
  | Plain (Int x), Finite q => Qeq_bool (inject_Z x) q
  | Finite p, Plain (Int y) => Qeq_bool p (inject_Z y)
  | Finite p, Finite q => Qeq_bool p q
  | _, _ => false
  end.

(** ** Exceptions *)

Inductive exn : Type := IndexError | OverflowError.

Inductive res (A : Type) : Type :=
| Ok (a : A)
| Raise (e : exn).
Arguments Ok {A} a.
Arguments Raise {A} e.

(** Sequencing: an exception raised by the first computation ends the
    evaluation.  This gives [res] the notation [x ← r; k]. *)
#[global] Instance res_bind : MBind res := fun A B k r =>
  match r with
  | Ok a => k a
  | Raise e => Raise e
  end.

(** ** Arithmetic *)

(** The integer with at most 53 significant bits nearest to [a >= 0], ties to
    the even mantissa: with [shift] the number of bits of [a] beyond 53, the
    mantissa [a // 2 ** shift] is kept or increased by one according to the
    bits shifted out. *)
Definition round53 (a : Z) : Z :=
  let shift := Z.log2 a + 1 - 53 in
  if shift <=? 0 then a
  else
    let mantissa := a / 2 ^ shift in
    let rest := a mod 2 ^ shift in
    let half := 2 ^ (shift - 1) in
    let mantissa :=
      if (half <? rest) || ((rest =? half) && Z.odd mantissa)
      then mantissa + 1 else mantissa in
    mantissa * 2 ^ shift.

(** The same for an int of either sign. *)
Definition round_int (x : Z) : Z := Z.sgn x * round53 (Z.abs x).

(** The conversion of an int operand to float that [int + float] makes
    first: it fails when the nearest float is not finite. *)
Definition int_to_float_ok (x : Z) : bool := Z.abs (round_int x) <? 2 ^ 1024.

(** Python's [a + b].  Two ints are added exactly.  An int added to a float
    is converted to float first, which raises [OverflowError] when it is too
    large; the floats here are infinities or nan, which absorb every finite
    float. *)
Definition num_add (a b : num) : res num :=
  match a, b with
  | Int x, Int y => Ok (Int (x + y))
  | Int x, other | other, Int x =>
      if int_to_float_ok x then Ok other else Raise OverflowError
  | NaN, _ | _, NaN => Ok NaN
  | NegInf, PosInf | PosInf, NegInf => Ok NaN
  | NegInf, NegInf => Ok NegInf
  | PosInf, PosInf => Ok PosInf
  end.

(** Python's [a / 2].  For an int [a] this is the true division of ints: the
    float nearest to the exact quotient [a / 2], and [OverflowError] when
    that float would be [2 ** 1024] or more in magnitude.  An infinity or nan
    divided by 2 is itself. *)
Definition num_div2 (a : num) : res value :=
  match a with
  | Int x =>
      let r := round_int x in
      if Z.abs r <? 2 ^ 1025 then Ok (Finite (inject_Z r / 2)%Q)
      else Raise OverflowError
  | other => Ok (Plain other)
  end.

(** ** List indexing *)

(** [len(l)]. *)
Definition len (l : list Z) : Z := Z.of_nat (length l).

(** [l[i]]: a negative index counts from the end, and an index outside
    the list raises [IndexError]. *)
Definition getitem (l : list Z) (i : Z) : res Z :=
  let j := if i <? 0 then i + len l else i in
  if (0 <=? j) && (j <? len l) then
    match l !! Z.to_nat j with
    | Some x => Ok x
    | None => Raise IndexError
    end
  else Raise IndexError.

(** ** The search loop *)

(** What one pass through the loop body does: it returns from the function,
    or it goes round again with new values of [left] and [right]. *)
Inductive step : Type :=
| Return (v : value)
| Narrow (left right : Z).

(** [partition1 = (left + right) // 2] *)
Definition partition1 (left right : Z) : Z := (left + right) / 2.

(** [partition2 = (m + n + 1) // 2 - partition1] *)
Definition partition2 (m n partition1 : Z) : Z := (m + n + 1) / 2 - partition1.

(** [float('-inf') if partition == 0 else nums[partition - 1]], the
    expression that gives [max1] and [max2]. *)
Definition maxLeft (nums : list Z) (partition : Z) : res num :=
  if partition =? 0 then Ok NegInf
  else x ← getitem nums (partition - 1); Ok (of_int x).

(** [float('inf') if partition == size else nums[partition]], the
    expression that gives [min1] (with [size = m]) and [min2] (with
    [size = n]). *)
Definition minRight (nums : list Z) (size partition : Z) : res num :=
  if partition =? size then Ok PosInf
  else x ← getitem nums partition; Ok (of_int x).

(** A value together with the equation that says what it is. *)
Definition inspect {A : Type} (a : A) : {b : A | a = b} := exist _ a eq_refl.

Section Search.

(** The variables of the function that the loop reads and never assigns. *)
Variables (nums1 nums2 : list Z) (m n : Z).

(** The body of the [while] loop. *)
Definition iteration (left right : Z) : res step :=
  let partition1 := partition1 left right in
  let partition2 := partition2 m n partition1 in
  max1 ← maxLeft nums1 partition1;
  min1 ← minRight nums1 m partition1;
  max2 ← maxLeft nums2 partition2;
  min2 ← minRight nums2 n partition2;
  if num_le max1 min2 && num_le max2 min1 then
    if (m + n) mod 2 =? 0 then
      total ← num_add (num_max max1 max2) (num_min min1 min2);
      median ← num_div2 total;
      Ok (Return median)
    else
      Ok (Return (Plain (num_max max1 max2)))
  else if num_gt max1 min2 then
    Ok (Narrow left (partition1 - 1))
  else
    Ok (Narrow (partition1 + 1) right).

(** [while left <= right: ...]; the result [None] is the value of a call
    that leaves the loop without a [return]. *)
Equations? search (left right : Z) : res (option value)
  by wf (Z.to_nat (right - left + 1)) lt :=
  search lo hi with inspect (lo <=? hi) := {
    | exist _ false _ => Ok None
    | exist _ true Hle with inspect (iteration lo hi) := {
      | exist _ (Raise e) _ => Raise e
      | exist _ (Ok (Return v)) _ => Ok (Some v)
      | exist _ (Ok (Narrow lo' hi')) Hit => search lo' hi' } }.
Proof.
  assert (lo <= partition1 lo hi <= hi)
    by (unfold partition1; split;
        [apply Z.div_le_lower_bound | apply Z.div_le_upper_bound]; lia).
  unfold iteration in Hit.
  repeat match type of Hit with
         | context [mbind _ (maxLeft ?l ?p)] =>
             destruct (maxLeft l p); cbn in Hit; try discriminate
         | context [mbind _ (minRight ?l ?s ?p)] =>
             destruct (minRight l s p); cbn in Hit; try discriminate
         end.
  destruct (num_le _ _ && num_le _ _).
  - destruct (_ =? 0); [| discriminate].
    destruct (num_add _ _); cbn in Hit; [| discriminate].
    destruct (num_div2 _); cbn in Hit; discriminate.
  - destruct (num_gt _ _); injection Hit as <- <-; lia.
Qed.

End Search.

(** [if len(nums1) > len(nums2): nums1, nums2 = nums2, nums1] *)
Definition shorter_first (nums1 nums2 : list Z) : list Z * list Z :=
  if len nums1 >? len nums2 then (nums2, nums1) else (nums1, nums2).

Definition findMedianSortedArrays (nums1 nums2 : list Z) : res (option value) :=
  let '(nums1, nums2) := shorter_first nums1 nums2 in
  let m := len nums1 in
  let n := len nums2 in
  let left := 0 in
  let right := m in
  search nums1 nums2 m n left right.

(** ** The oracle of the specification *)

(** Merging two ascending lists into one ascending list. *)
Fixpoint merge (A : list Z) : list Z -> list Z :=
  fix merge_with_A (B : list Z) : list Z :=
    match A, B with
    | [], _ => B
    | _, [] => A
    | x :: A', y :: B' =>
        if x <=? y then x :: merge A' B else y :: merge_with_A B'
    end.

(** The median of a list that is already in ascending order, as a rational
    number: its middle element when the length is odd, the mean of its two
    middle elements when the length is even, and nothing for the empty
    list. *)
Definition middle (M : list Z) : option Q :=
  let k := length M in
  if Nat.even k then
    match M !! (k / 2 - 1)%nat, M !! (k / 2)%nat with
    | Some x, Some y => Some (inject_Z (x + y) / 2)%Q
    | _, _ => None
    end
  else
    match M !! (k / 2)%nat with
    | Some x => Some (inject_Z x)
    | None => None
    end.

(** The merge-and-index median the specification compares against. *)
Definition merged_median (A B : list Z) : option Q := middle (merge A B).

(** ** Predicates used in the statements *)

(** The list is in ascending order. *)
Fixpoint ascending (l : list Z) : bool :=
  match l with
  | x :: ((y :: _) as rest) => (x <=? y) && ascending rest
  | _ => true
  end.

(** The evaluation ended with an exception. *)
Definition raises {A : Type} (r : res A) : Prop := exists e, r = Raise e.

(** The call returned a number that Python's [==] finds equal to [x]. *)
Definition returns (r : res (option value)) (x : value) : Prop :=
  exists v, r = Ok (Some v) /\ value_eq v x = true.

(** The returned value stands for the rational number [q]. *)
Definition value_is (v : value) (q : Q) : bool :=
  match v with
  | Plain (Int x) => Qeq_bool (inject_Z x) q
  | Finite p => Qeq_bool p q
  | _ => false
  end.

(** The call returned a number equal to the rational number [q]. *)
Definition returns_exactly (r : res (option value)) (q : Q) : Prop :=
  exists v, r = Ok (Some v) /\ value_is v q = true.

(** The least magnitude of an int whose half is too large for a float:
    [2 ** 1025 - 2 ** 971], twice the midpoint between the largest float and
    [2 ** 1024]. *)
Definition overflow_from : Z := 2 ^ 1025 - 2 ^ 971.

(** The outcome [r] of a call is that of halving the int [s] the way [/ 2]
    does: the exact half when [|s| <= 2 ** 53]; below [overflow_from] a float
    [z / 2], where the int [z] has at most 53 significant bits and lies
    within [|s| / 2 ** 53] of [s]; [OverflowError] from [overflow_from] on. *)
Definition halves_to (s : Z) (r : res (option value)) : Prop :=
  (Z.abs s <= 2 ^ 53 -> r = Ok (Some (Finite (inject_Z s / 2)%Q))) /\
  (Z.abs s < overflow_from ->
   exists z, r = Ok (Some (Finite (inject_Z z / 2)%Q)) /\
     Z.abs (z - s) * 2 ^ 53 <= Z.abs s /\
     exists mantissa exponent,
       0 <= exponent /\ Z.abs mantissa <= 2 ^ 53 /\
       z = mantissa * 2 ^ exponent) /\
  (overflow_from <= Z.abs s -> r = Raise OverflowError).

(** The outcome [r] of a call is the median of the ascending list [M] taken
    the way the function takes it: the middle element as an int when the
    length is odd, the sum of the two middle elements halved by [/ 2] when it
    is even. *)
Definition python_median (M : list Z) (r : res (option value)) : Prop :=
  let k := length M in
  if Nat.even k then
    exists x y, M !! (k / 2 - 1)%nat = Some x /\ M !! (k / 2)%nat = Some y /\
      halves_to (x + y) r
  else
    exists x, M !! (k / 2)%nat = Some x /\ r = Ok (Some (Plain (Int x))).

(** [ceil(x / 2)], from the floor division. *)
Definition ceil_half (x : Z) : Z := - ((- x) / 2).

(** The pairs [(left, right)] with which the loop condition is evaluated
    during the call whose loop starts at [(0, m)]. *)
Inductive reachable (nums1 nums2 : list Z) (m n : Z) : Z -> Z -> Prop :=
| reach_start : reachable nums1 nums2 m n 0 m
| reach_next (left right left' right' : Z) :
    reachable nums1 nums2 m n left right ->
    left <= right ->
    iteration nums1 nums2 m n left right = Ok (Narrow left' right') ->
    reachable nums1 nums2 m n left' right'.

(** The pairs [(left, right)] with which the loop condition is evaluated,
    together with the number of passes made before. *)
Inductive reachable_after (nums1 nums2 : list Z) (m n : Z) :
    nat -> Z -> Z -> Prop :=
| after_start : reachable_after nums1 nums2 m n 0 0 m
| after_next (k : nat) (left right left' right' : Z) :
    reachable_after nums1 nums2 m n k left right ->
    left <= right ->
    iteration nums1 nums2 m n left right = Ok (Narrow left' right') ->
    reachable_after nums1 nums2 m n (S k) left' right'.

(** The test [max1 <= min2 and max2 <= min1] holds at the cut [p] of
    [nums1]. *)
Definition passes_test (nums1 nums2 : list Z) (p : Z) : Prop :=
  let q := partition2 (len nums1) (len nums2) p in
  exists max1 min1 max2 min2,
    maxLeft nums1 p = Ok max1 /\ minRight nums1 (len nums1) p = Ok min1 /\
    maxLeft nums2 q = Ok max2 /\ minRight nums2 (len nums2) q = Ok min2 /\
    num_le max1 min2 && num_le max2 min1 = true.

(** [max1 > min2] at the cut [p] of [nums1]: the case that moves [right]. *)
Definition overshoots (nums1 nums2 : list Z) (p : Z) : Prop :=
  let q := partition2 (len nums1) (len nums2) p in
  exists max1 min2,
    maxLeft nums1 p = Ok max1 /\ minRight nums2 (len nums2) q = Ok min2 /\
    num_gt max1 min2 = true.

(** [max2 > min1] at the cut [p] of [nums1]: the case that moves [left]. *)
Definition undershoots (nums1 nums2 : list Z) (p : Z) : Prop :=
  let q := partition2 (len nums1) (len nums2) p in
  exists max2 min1,
    maxLeft nums2 q = Ok max2 /\ minRight nums1 (len nums1) p = Ok min1 /\
    num_gt max2 min1 = true.

(** ** Definitions used in the proofs *)

(** A value that is an int or one of the two sentinels. *)
Definition ordered (v : num) : Prop := v <> NaN.

(** The value of [maxLeft] computed without the bounds check. *)
Definition left_val (l : list Z) (p : Z) : num :=
  if p =? 0 then NegInf else of_int (nth (Z.to_nat (p - 1)) l 0).

(** The value of [minRight] computed without the bounds check. *)
Definition right_val (l : list Z) (p : Z) : num :=
  if p =? len l then PosInf else of_int (nth (Z.to_nat p) l 0).

(** The value of [return (max(max1, max2) + min(min1, min2)) / 2] when
    [even] holds and of [return max(max1, max2)] when it does not. *)
Definition returned (even : bool) (max1 min1 max2 min2 : num) : res value :=
  if even then
    total ← num_add (num_max max1 max2) (num_min min1 min2);
    num_div2 total
  else Ok (Plain (num_max max1 max2)).

(** The last statements of the loop body, on the boundary values. *)
Definition verdict (m n left right : Z) (max1 min1 max2 min2 : num) : res step :=
  if num_le max1 min2 && num_le max2 min1 then
    v ← returned ((m + n) mod 2 =? 0) max1 min1 max2 min2; Ok (Return v)
  else if num_gt max1 min2 then
    Ok (Narrow left (partition1 left right - 1))
  else
    Ok (Narrow (partition1 left right + 1) right).

(** [max1 <= min2] at the cut [p]. *)
Definition good_left (nums1 nums2 : list Z) (p : Z) : Prop :=
  num_le (left_val nums1 p)
         (right_val nums2 (partition2 (len nums1) (len nums2) p)) = true.

(** [max2 <= min1] at the cut [p]. *)
Definition good_right (nums1 nums2 : list Z) (p : Z) : Prop :=
  num_le (left_val nums2 (partition2 (len nums1) (len nums2) p))
         (right_val nums1 p) = true.

(** What the return statement of a pass gives when the test passes at the
    cut [p]. *)
Definition result_at (nums1 nums2 : list Z) (p : Z) : res value :=
  returned ((len nums1 + len nums2) mod 2 =? 0)
    (left_val nums1 p) (right_val nums1 p)
    (left_val nums2 (partition2 (len nums1) (len nums2) p))
    (right_val nums2 (partition2 (len nums1) (len nums2) p)).

(** The outcome of the call whose return statement gives [r]. *)
Definition answer (r : res value) : res (option value) := v ← r; Ok (Some v).

(** The loop invariant: the range lies inside [0, m], it is not empty, and
    the two halves of the test hold at its two ends. *)
Definition inv (nums1 nums2 : list Z) (left right : Z) : Prop :=
  0 <= left /\ left <= right /\ right <= len nums1 /\
  good_left nums1 nums2 left /\ good_right nums1 nums2 right.

(** The median of the ascending list [M] evaluated the way the function
    does. *)
Definition middle_outcome (M : list Z) : res (option value) :=
  let k := length M in
  if Nat.even k then
    match M !! (k / 2 - 1)%nat, M !! (k / 2)%nat with
    | Some x, Some y => answer (num_div2 (Int (x + y)))
    | _, _ => Ok None
    end
  else
    match M !! (k / 2)%nat with
    | Some x => Ok (Some (Plain (Int x)))
    | None => Ok None
    end.

(** Replaces the power [2 ^ e] of a numeral by its value. *)
Ltac pow2 e :=
  let c := eval vm_compute in (2 ^ e) in change (2 ^ e) with c in *.

(** ** Rounding an int to 53 bits *)

(** The pieces of [round53 a] when [a] has more than 53 bits. *)
Lemma round53_pieces (a : Z) :
  2 ^ 53 <= a ->
  exists shift P h m r,
    shift = Z.log2 a - 52 /\ P = 2 ^ shift /\ h = 2 ^ (shift - 1) /\
    0 < shift /\ 0 < h /\ P = 2 * h /\ a = m * P + r /\ 0 <= r < P /\
    2 ^ 52 <= m < 2 ^ 53 /\ 2 ^ 53 * h <= a /\
    round53 a = (if (h <? r) || ((r =? h) && Z.odd m) then m + 1 else m) * P.
Proof.
  intros Ha.
  assert (Hpos : 0 < a) by (pow2 53; lia).
  pose proof (Z.log2_spec a Hpos) as [Hlo Hhi].
  assert (Hlog : 53 <= Z.log2 a) by (apply Z.log2_le_pow2; done).
  remember (Z.log2 a - 52) as shift eqn:Es.
  remember (2 ^ shift) as P eqn:EP.
  remember (2 ^ (shift - 1)) as h eqn:Eh.
  exists shift, P, h, (a / P), (a mod P).
  assert (Hshift : 0 < shift) by lia.
  assert (Hh : 0 < h) by (subst h; apply Z.pow_pos_nonneg; lia).
  assert (HP : P = 2 * h).
  { subst P h. replace shift with (Z.succ (shift - 1)) at 1 by lia.
    apply Z.pow_succ_r. lia. }
  assert (Hlo' : 2 ^ Z.log2 a = 2 ^ 52 * P).
  { subst P. rewrite <- Z.pow_add_r by lia. f_equal. lia. }
  assert (Hhi' : 2 ^ Z.succ (Z.log2 a) = 2 ^ 53 * P).
  { subst P. rewrite <- Z.pow_add_r by lia. f_equal. lia. }
  assert (HPpos : 0 < P) by lia.
  pose proof (Z.div_mod a P ltac:(lia)) as Hdm.
  pose proof (Z.mod_pos_bound a P HPpos) as Hr.
  assert (Hm : 2 ^ 52 <= a / P < 2 ^ 53).
  { pow2 52. pow2 53. split.
    - apply Z.div_le_lower_bound; lia.
    - apply Z.div_lt_upper_bound; lia. }
  split_and!; try done; try lia.
  unfold round53.
    replace (Z.log2 a + 1 - 53) with shift by lia.
    destruct (shift <=? 0) eqn:E; [lia |]. cbv zeta. by rewrite <- EP, <- Eh.
Qed.

Lemma round53_small (a : Z) : 0 <= a <= 2 ^ 53 -> round53 a = a.
Proof.
  intros Ha. destruct (Z.eq_dec a (2 ^ 53)) as [-> | Hne].
  { vm_compute. reflexivity. }
  unfold round53.
  destruct (Z.log2 a + 1 - 53 <=? 0) eqn:E; [done |].
  assert (0 < a) by (destruct (Z.eq_dec a 0) as [-> |]; [discriminate E | lia]).
  assert (Z.log2 a < 53) by (apply Z.log2_lt_pow2; lia).
  lia.
Qed.

Lemma round53_error (a : Z) : 0 <= a -> Z.abs (round53 a - a) * 2 ^ 53 <= a.
Proof.
  intros Ha. destruct (Z_lt_le_dec a (2 ^ 53)) as [Hlt | Hge].
  { rewrite round53_small by lia. replace (a - a) with 0 by lia. simpl. lia. }
  destruct (round53_pieces a Hge)
    as (shift & P & h & m & r & _ & _ & _ & _ & Hh & HP & Hdm & Hr & Hm & Hbig & ->).
  assert (Z.abs ((if (h <? r) || ((r =? h) && Z.odd m) then m + 1 else m) * P - a) <= h).
  { destruct (h <? r) eqn:E1; simpl.
    - lia.
    - destruct (r =? h) eqn:E2; simpl; [destruct (Z.odd m) |]; lia. }
  pow2 53. lia.
Qed.

Lemma round53_below (a : Z) : 0 <= a < overflow_from -> round53 a < 2 ^ 1025.
Proof.
  intros [Ha Hlt]. unfold overflow_from in Hlt.
  destruct (Z_lt_le_dec a (2 ^ 53)) as [Hs | Hge].
  { rewrite round53_small by lia. pow2 53. pow2 1025. lia. }
  assert (Hlog : Z.log2 a < 1025).
  { apply Z.log2_lt_pow2; [pow2 53; lia |]. pow2 971. pow2 1025. lia. }
  destruct (round53_pieces a Hge)
    as (shift & P & h & m & r & Es & EP & Eh & Hshift & Hh & HP & Hdm & Hr & Hm & Hbig & ->).
  destruct (Z.eq_dec (Z.log2 a) 1024) as [E | Hne].
  - rewrite E in Es. change (1024 - 52) with 972 in Es. subst shift.
    change (972 - 1) with 971 in Eh. subst P h.
    pow2 52. pow2 53. pow2 971. pow2 972. pow2 1025.
    destruct (_ <? r) eqn:E1; simpl.
    + lia.
    + destruct (r =? _) eqn:E2; simpl; [| lia].
      destruct (Z.odd m) eqn:E3; lia.
  - assert (HP' : 2 ^ 53 * P <= 2 ^ 1024).
    { subst P. rewrite <- Z.pow_add_r by lia. apply Z.pow_le_mono_r; lia. }
    assert ((if (h <? r) || ((r =? h) && Z.odd m) then m + 1 else m) <= 2 ^ 53)
      by (destruct (_ || _); lia).
    pow2 53. pow2 1024. pow2 1025. nia.
Qed.

Lemma round53_above (a : Z) : overflow_from <= a -> 2 ^ 1025 <= round53 a.
Proof.
  intros Hge. unfold overflow_from in Hge.
  assert (H53 : 2 ^ 53 <= a) by (pow2 53; pow2 971; pow2 1025; lia).
  assert (Hlog : 1024 <= Z.log2 a).
  { apply Z.log2_le_pow2; [pow2 53; lia |]. pow2 971. pow2 1024. pow2 1025. lia. }
  destruct (round53_pieces a H53)
    as (shift & P & h & m & r & Es & EP & Eh & Hshift & Hh & HP & Hdm & Hr & Hm & Hbig & ->).
  destruct (Z.eq_dec (Z.log2 a) 1024) as [E | Hne].
  - rewrite E in Es. change (1024 - 52) with 972 in Es. subst shift.
    change (972 - 1) with 971 in Eh. subst P h.
    assert (Em : m = 2 ^ 53 - 1)
      by (pow2 52; pow2 53; pow2 971; pow2 972; pow2 1025; lia).
    assert (Hodd : Z.odd m = true) by (rewrite Em; vm_compute; reflexivity).
    rewrite Hodd.
    pow2 52. pow2 53. pow2 971. pow2 972. pow2 1025.
    destruct (_ <? r) eqn:E1; simpl; [lia |].
    destruct (r =? _) eqn:E2; simpl; lia.
  - assert (HP' : 2 ^ 1025 <= 2 ^ 52 * P).
    { subst P. rewrite <- Z.pow_add_r by lia. apply Z.pow_le_mono_r; lia. }
    assert (m <= (if (h <? r) || ((r =? h) && Z.odd m) then m + 1 else m))
      by (destruct (_ || _); lia).
    pow2 52. pow2 1025. nia.
Qed.

Lemma round53_nonneg (a : Z) : 0 <= a -> 0 <= round53 a.
Proof. intros Ha. pose proof (round53_error a Ha). pow2 53. lia. Qed.

Lemma round_int_small (s : Z) : Z.abs s <= 2 ^ 53 -> round_int s = s.
Proof.
  intros Hs. unfold round_int. rewrite round53_small by lia.
  destruct (Z.sgn_spec s) as [[? ->] | [[? ->] | [? ->]]]; lia.
Qed.

Lemma round_int_error (s : Z) : Z.abs (round_int s - s) * 2 ^ 53 <= Z.abs s.
Proof.
  unfold round_int. pose proof (round53_error (Z.abs s) ltac:(lia)).
  destruct (Z.sgn_spec s) as [[? ->] | [[? ->] | [? ->]]]; pow2 53; lia.
Qed.

Lemma round_int_abs (s : Z) : Z.abs (round_int s) = round53 (Z.abs s).
Proof.
  unfold round_int. pose proof (round53_nonneg (Z.abs s) ltac:(lia)).
  destruct (Z.sgn_spec s) as [[? E] | [[<- E] | [? E]]]; rewrite E; try lia.
  reflexivity.
Qed.

(** The rounded int has at most 53 significant bits. *)
Lemma round_int_bits (s : Z) :
  exists mantissa exponent,
    0 <= exponent /\ Z.abs mantissa <= 2 ^ 53 /\
    round_int s = mantissa * 2 ^ exponent.
Proof.
  destruct (Z_lt_le_dec (Z.abs s) (2 ^ 53)) as [Hlt | Hge].
  { exists s, 0. rewrite round_int_small by lia.
    split_and!; [lia | lia |]. rewrite Z.pow_0_r. lia. }
  unfold round_int.
  destruct (round53_pieces (Z.abs s) Hge)
    as (shift & P & h & m & r & _ & -> & _ & Hshift & _ & _ & _ & _ & Hm & _ & ->).
  exists (Z.sgn s * (if (h <? r) || ((r =? h) && Z.odd m) then m + 1 else m)),
         shift.
  split_and!; [lia | | ring].
  assert (0 <= (if (h <? r) || ((r =? h) && Z.odd m) then m + 1 else m) <= 2 ^ 53)
    by (pow2 52; pow2 53; destruct (_ || _); lia).
  destruct (Z.sgn_spec s) as [[? ->] | [[? ->] | [? ->]]]; lia.
Qed.

(** Halving an int by [/ 2]. *)
Lemma num_div2_halves (s : Z) : halves_to s (answer (num_div2 (Int s))).
Proof.
  unfold halves_to, answer, num_div2. rewrite round_int_abs. split_and!.
  - intros Hs. rewrite round_int_small by done.
    rewrite round53_small by lia.
    destruct (Z.abs s <? 2 ^ 1025) eqn:E; [done |]. pow2 53. pow2 1025. lia.
  - intros Hs. pose proof (round53_below (Z.abs s) ltac:(lia)).
    destruct (round53 (Z.abs s) <? 2 ^ 1025) eqn:E; [| lia].
    exists (round_int s).
    split_and!; [done | apply round_int_error | apply round_int_bits].
  - intros Hs. pose proof (round53_above (Z.abs s) Hs).
    destruct (round53 (Z.abs s) <? 2 ^ 1025) eqn:E; [lia | done].
Qed.

(** ** The loop, one pass at a time *)

Section SearchFacts.

Variables (nums1 nums2 : list Z) (m n : Z).

Lemma partition1_between (left right : Z) :
  left <= right -> left <= partition1 left right <= right.
Proof.
  intros Hle. unfold partition1.
  split; [apply Z.div_le_lower_bound | apply Z.div_le_upper_bound]; lia.
Qed.

(** A pass that goes round again moves one end of the range past
    [partition1]. *)
Lemma iteration_Narrow_inv (left right left' right' : Z) :
  iteration nums1 nums2 m n left right = Ok (Narrow left' right') ->
  (left' = left /\ right' = partition1 left right - 1) \/
  (left' = partition1 left right + 1 /\ right' = right).
Proof.
  unfold iteration. intros H.
  repeat match type of H with
         | context [mbind _ (maxLeft ?l ?p)] =>
             destruct (maxLeft l p); cbn in H; try discriminate
         | context [mbind _ (minRight ?l ?s ?p)] =>
             destruct (minRight l s p); cbn in H; try discriminate
         end.
  destruct (num_le _ _ && num_le _ _).
  - destruct (_ =? 0); [| discriminate].
    destruct (num_add _ _); cbn in H; [| discriminate].
    destruct (num_div2 _); cbn in H; discriminate.
  - destruct (num_gt _ _); injection H as <- <-; auto.
Qed.

(** Every pass that goes round again leaves a shorter range. *)
Lemma iteration_narrows (left right left' right' : Z) :
  left <= right ->
  iteration nums1 nums2 m n left right = Ok (Narrow left' right') ->
  (Z.to_nat (right' - left' + 1) < Z.to_nat (right - left + 1))%nat.
Proof.
  intros Hle H. pose proof (partition1_between _ _ Hle).
  destruct (iteration_Narrow_inv _ _ _ _ H) as [[-> ->] | [-> ->]]; lia.
Qed.

Lemma search_eq (left right : Z) :
  search nums1 nums2 m n left right =
  if left <=? right then
    match iteration nums1 nums2 m n left right with
    | Raise e => Raise e
    | Ok (Return v) => Ok (Some v)
    | Ok (Narrow left' right') => search nums1 nums2 m n left' right'
    end
  else Ok None.
Proof.
  funelim (search nums1 nums2 m n left right);
    repeat match goal with
           | E : (_ <=? _) = _ |- _ => rewrite E
           | E : iteration _ _ _ _ _ _ = _ |- _ => rewrite E
           end; reflexivity.
Qed.

End SearchFacts.

(** ** Numbers: comparisons of list elements *)

Lemma num_le_of_int (a b : Z) : num_le (of_int a) (of_int b) = (a <=? b).
Proof. reflexivity. Qed.

Lemma num_lt_of_int (a b : Z) : num_lt (of_int a) (of_int b) = (a <? b).
Proof. reflexivity. Qed.

Lemma num_max_of_int (a b : Z) : num_max (of_int a) (of_int b) = of_int (Z.max a b).
Proof.
  unfold num_max, num_gt. rewrite num_lt_of_int. unfold of_int.
  destruct (a <? b) eqn:E; f_equal; lia.
Qed.

Lemma num_min_of_int (a b : Z) : num_min (of_int a) (of_int b) = of_int (Z.min a b).
Proof.
  unfold num_min. rewrite num_lt_of_int. unfold of_int.
  destruct (b <? a) eqn:E; f_equal; lia.
Qed.

Lemma num_gt_not_le (a b : num) :
  ordered a -> ordered b -> num_gt a b = negb (num_le a b).
Proof.
  unfold ordered, num_gt. destruct a, b; simpl; try congruence.
  intros _ _. apply Z.ltb_antisym.
Qed.

(** ** The boundary values when the cuts lie inside the lists *)

Lemma getitem_in_range (l : list Z) (i : Z) :
  0 <= i < len l -> getitem l i = Ok (nth (Z.to_nat i) l 0).
Proof.
  intros Hi. unfold getitem.
  destruct (i <? 0) eqn:Hneg; [lia |].
  destruct (0 <=? i) eqn:H0; [| lia].
  destruct (i <? len l) eqn:H1; [| lia]. simpl.
  destruct (nth_lookup_or_length l (Z.to_nat i) 0) as [-> | Hlen]; [done |].
  unfold len in Hi. lia.
Qed.

Lemma maxLeft_in_range (l : list Z) (p : Z) :
  0 <= p <= len l -> maxLeft l p = Ok (left_val l p).
Proof.
  intros Hp. unfold maxLeft, left_val.
  destruct (p =? 0) eqn:E; [done |].
  rewrite getitem_in_range by lia. done.
Qed.

Lemma minRight_in_range (l : list Z) (p : Z) :
  0 <= p <= len l -> minRight l (len l) p = Ok (right_val l p).
Proof.
  intros Hp. unfold minRight, right_val.
  destruct (p =? len l) eqn:E; [done |].
  rewrite getitem_in_range by lia. done.
Qed.

Lemma left_val_ordered (l : list Z) (p : Z) : ordered (left_val l p).
Proof. unfold left_val, ordered. by destruct (p =? 0). Qed.

Lemma right_val_ordered (l : list Z) (p : Z) : ordered (right_val l p).
Proof. unfold right_val, ordered. by destruct (p =? len l). Qed.

(** When the left value of [X] at [p] exceeds the right value of [Y] at [q],
    neither is a sentinel, and moving both cuts by one towards those two
    elements puts them on the other sides in the right order. *)
Lemma cross_fail (X Y : list Z) (p q : Z) :
  0 <= q -> p <= len X ->
  num_le (left_val X p) (right_val Y q) = false ->
  p <> 0 /\ q <> len Y /\
  num_le (left_val Y (q + 1)) (right_val X (p - 1)) = true.
Proof.
  intros Hq Hp. unfold left_val, right_val.
  destruct (p =? 0) eqn:E0, (q =? len Y) eqn:E1; try done.
  rewrite num_le_of_int. intros Hgt.
  destruct (q + 1 =? 0) eqn:E2; [lia |].
  destruct (p - 1 =? len X) eqn:E3; [lia |].
  rewrite num_le_of_int. replace (q + 1 - 1) with q by lia.
  repeat split; lia.
Qed.

Lemma iteration_verdict (nums1 nums2 : list Z) (m n left right : Z)
    (max1 min1 max2 min2 : num) :
  maxLeft nums1 (partition1 left right) = Ok max1 ->
  minRight nums1 m (partition1 left right) = Ok min1 ->
  maxLeft nums2 (partition2 m n (partition1 left right)) = Ok max2 ->
  minRight nums2 n (partition2 m n (partition1 left right)) = Ok min2 ->
  iteration nums1 nums2 m n left right =
  verdict m n left right max1 min1 max2 min2.
Proof.
  intros H1 H2 H3 H4. unfold iteration, verdict, returned.
  rewrite H1, H2, H3, H4. cbn.
  destruct (num_le max1 min2 && num_le max2 min1); [| by destruct (num_gt _ _)].
  destruct (_ =? 0); [| done].
  destruct (num_add _ _); cbn; [| done]. by destruct (num_div2 _).
Qed.

(** With the shorter list first, a cut of the first list inside it puts the
    cut of the second list inside that one. *)
Lemma partition2_in_range (m n p : Z) :
  0 <= m <= n -> 0 <= p <= m -> 0 <= partition2 m n p <= n.
Proof. unfold partition2. Z.div_mod_to_equations. lia. Qed.

Lemma len_nonneg (l : list Z) : 0 <= len l.
Proof. unfold len. lia. Qed.

(** ** The search finds a cut that passes the test *)

Section Finds.

Variables nums1 nums2 : list Z.
Hypothesis Hshorter : len nums1 <= len nums2.

Local Abbreviation m := (len nums1).
Local Abbreviation n := (len nums2).

Lemma iteration_at (left right : Z) :
  0 <= left -> left <= right -> right <= m ->
  iteration nums1 nums2 m n left right =
  verdict m n left right
    (left_val nums1 (partition1 left right))
    (right_val nums1 (partition1 left right))
    (left_val nums2 (partition2 m n (partition1 left right)))
    (right_val nums2 (partition2 m n (partition1 left right))).
Proof.
  intros H0 Hle Hm. pose proof (partition1_between _ _ Hle) as Hp.
  pose proof (partition2_in_range m n (partition1 left right)) as Hq.
  apply iteration_verdict.
  - apply maxLeft_in_range. lia.
  - apply minRight_in_range. lia.
  - apply maxLeft_in_range. lia.
  - apply minRight_in_range. lia.
Qed.

Lemma good_left_start : good_left nums1 nums2 0.
Proof.
  unfold good_left, left_val. simpl.
  pose proof (right_val_ordered nums2 (partition2 m n 0)) as Hord.
  by destruct (right_val _ _).
Qed.

Lemma good_right_end : good_right nums1 nums2 m.
Proof.
  unfold good_right, right_val. rewrite Z.eqb_refl.
  pose proof (left_val_ordered nums2 (partition2 m n m)) as Hord.
  by destruct (left_val _ _).
Qed.

(** [max1 > min2] at [p]: the cut just below [p] has [max2 <= min1]. *)
Lemma too_far_right (p : Z) :
  0 <= p <= m -> ~ good_left nums1 nums2 p -> p <> 0 /\ good_right nums1 nums2 (p - 1).
Proof.
  intros Hp Hbad. unfold good_left in Hbad.
  apply not_true_is_false in Hbad.
  pose proof (len_nonneg nums1). pose proof (partition2_in_range m n p).
  apply cross_fail in Hbad as (Hp0 & _ & Hgood); [| lia ..].
  split; [done |]. unfold good_right.
  replace (partition2 m n (p - 1)) with (partition2 m n p + 1)
    by (unfold partition2; lia).
  done.
Qed.

(** [max2 > min1] at [p]: the cut just above [p] has [max1 <= min2]. *)
Lemma too_far_left (p : Z) :
  0 <= p <= m -> ~ good_right nums1 nums2 p -> p <> m /\ good_left nums1 nums2 (p + 1).
Proof.
  intros Hp Hbad. unfold good_right in Hbad.
  apply not_true_is_false in Hbad.
  pose proof (len_nonneg nums1). pose proof (partition2_in_range m n p).
  apply cross_fail in Hbad as (_ & Hpm & Hgood); [| lia ..].
  split; [done |]. unfold good_left.
  replace (partition2 m n (p + 1)) with (partition2 m n p - 1)
    by (unfold partition2; lia).
  done.
Qed.

Lemma inv_start : inv nums1 nums2 0 m.
Proof.
  pose proof (len_nonneg nums1).
  repeat split; [lia .. | apply good_left_start | apply good_right_end].
Qed.

(** One pass from a state with the invariant: the test passes and the
    function returns, or the pass narrows to a state with the invariant. *)
Lemma inv_step (left right : Z) :
  inv nums1 nums2 left right ->
  let p := partition1 left right in
  (good_left nums1 nums2 p /\ good_right nums1 nums2 p /\
   iteration nums1 nums2 m n left right =
     (v ← result_at nums1 nums2 p; Ok (Return v))) \/
  (exists left' right',
     iteration nums1 nums2 m n left right = Ok (Narrow left' right') /\
     inv nums1 nums2 left' right').
Proof.
  intros (H0 & Hle & Hm & HL & HR) p.
  pose proof (partition1_between _ _ Hle) as Hp. fold p in Hp.
  rewrite iteration_at by done. unfold verdict. fold p.
  destruct (num_le (left_val nums1 p) (right_val nums2 (partition2 m n p)))
    eqn:E1.
  - destruct (num_le (left_val nums2 (partition2 m n p)) (right_val nums1 p))
      eqn:E2; simpl.
    + left. repeat split; done.
    + right. rewrite num_gt_not_le, E1
        by auto using left_val_ordered, right_val_ordered.
      simpl.
      destruct (too_far_left p) as [Hpm HL'];
        [lia | unfold good_right; congruence |].
      assert (p <> right) by (intros ->; unfold good_right in HR; congruence).
      exists (p + 1), right. repeat split; try done; lia.
  - right. simpl. rewrite num_gt_not_le, E1
      by auto using left_val_ordered, right_val_ordered.
    simpl.
    destruct (too_far_right p) as [Hp0 HR'];
      [lia | unfold good_left; congruence |].
    assert (p <> left) by (intros ->; unfold good_left in HL; congruence).
    exists left, (p - 1). repeat split; try done; lia.
Qed.

(** With the invariant the loop ends by the test passing at some cut. *)
Lemma search_finds_bounded (k : nat) (left right : Z) :
  right - left < Z.of_nat k ->
  inv nums1 nums2 left right ->
  exists p, 0 <= p <= m /\ good_left nums1 nums2 p /\ good_right nums1 nums2 p /\
    search nums1 nums2 m n left right = answer (result_at nums1 nums2 p).
Proof.
  revert left right. induction k as [| k IH]; intros left right Hk Hinv.
  { destruct Hinv as (_ & ? & _). lia. }
  pose proof Hinv as (H0 & Hle & Hm & _).
  pose proof (partition1_between _ _ Hle) as Hp.
  rewrite search_eq.
  destruct (left <=? right) eqn:E; [clear E | lia].
  destruct (inv_step left right Hinv)
    as [(HL & HR & ->) | (left' & right' & Hit & Hinv')].
  - exists (partition1 left right). split_and!; try done; try lia.
    unfold answer. by destruct (result_at _ _ _).
  - rewrite Hit. apply IH; [| done].
    pose proof (iteration_narrows _ _ _ _ _ _ _ _ Hle Hit). lia.
Qed.

Lemma search_finds :
  exists p, 0 <= p <= m /\ good_left nums1 nums2 p /\ good_right nums1 nums2 p /\
    search nums1 nums2 m n 0 m = answer (result_at nums1 nums2 p).
Proof.
  pose proof (len_nonneg nums1).
  apply (search_finds_bounded (S (Z.to_nat m))); [lia | apply inv_start].
Qed.

(** Every state the loop reaches has the invariant, so the loop condition
    holds each time it is evaluated. *)
Lemma reachable_inv (left right : Z) :
  reachable nums1 nums2 m n left right -> inv nums1 nums2 left right.
Proof.
  induction 1 as [| left right left' right' _ IH Hle Hit].
  { apply inv_start. }
  destruct (inv_step left right IH)
    as [(_ & _ & Hret) | (l' & r' & Hit' & Hinv')]; [| congruence].
  rewrite Hret in Hit. by destruct (result_at _ _ _).
Qed.

End Finds.

(** ** Ascending lists *)

Local Abbreviation sorted := (StronglySorted Z.le).

Lemma ascending_sorted (l : list Z) : ascending l = true -> sorted l.
Proof.
  intros H. apply Sorted_StronglySorted; [apply _ |].
  induction l as [| x l IH]; [constructor |].
  destruct l as [| y l]; [repeat constructor |].
  apply andb_prop in H as [Hxy Hrest].
  constructor; [by apply IH | constructor; lia].
Qed.

Lemma sorted_lookup_le (l : list Z) (i j : nat) (x y : Z) :
  sorted l -> l !! i = Some x -> l !! j = Some y -> (i <= j)%nat -> x <= y.
Proof.
  intros Hs. revert i j. induction Hs as [| a l Hs IH Hall]; intros i j Hi Hj Hij.
  { done. }
  destruct i as [| i], j as [| j]; simplify_eq/=; [lia | | lia |].
  - by eapply (Forall_lookup_1 (Z.le x)).
  - apply (IH i j); [done | done | lia].
Qed.

Section Cuts.

Variable l : list Z.
Hypothesis Hsorted : sorted l.
Variable i : nat.

Lemma take_le_drop (x y : Z) : x ∈ take i l -> y ∈ drop i l -> x <= y.
Proof.
  intros (k & Hk & Hlt)%elem_of_take (k' & Hk')%list_elem_of_lookup_1.
  rewrite lookup_drop in Hk'.
  eapply sorted_lookup_le; [done | exact Hk | exact Hk' | lia].
Qed.

Lemma take_le_last (x : Z) :
  (0 < i <= length l)%nat -> x ∈ take i l -> x <= nth (i - 1) l 0.
Proof.
  intros Hi (k & Hk & Hlt)%elem_of_take.
  destruct (nth_lookup_or_length l (i - 1) 0) as [Hn | ?]; [| lia].
  eapply sorted_lookup_le; [done | exact Hk | exact Hn | lia].
Qed.

Lemma drop_ge_first (y : Z) :
  (i < length l)%nat -> y ∈ drop i l -> nth i l 0 <= y.
Proof.
  intros Hi (k & Hk)%list_elem_of_lookup_1. rewrite lookup_drop in Hk.
  destruct (nth_lookup_or_length l i 0) as [Hn | ?]; [| lia].
  eapply sorted_lookup_le; [done | exact Hn | exact Hk | lia].
Qed.

Lemma last_in_take : (0 < i <= length l)%nat -> nth (i - 1) l 0 ∈ take i l.
Proof.
  intros Hi. apply elem_of_take. exists (i - 1)%nat.
  destruct (nth_lookup_or_length l (i - 1) 0) as [Hn | ?]; [| lia].
  split; [done | lia].
Qed.

Lemma first_in_drop : (i < length l)%nat -> nth i l 0 ∈ drop i l.
Proof.
  intros Hi. apply list_elem_of_lookup. exists 0%nat.
  rewrite lookup_drop, Nat.add_0_r.
  by destruct (nth_lookup_or_length l i 0) as [Hn | ?]; [| lia].
Qed.

End Cuts.

(** ** The merge *)

Lemma merge_list_merge (A B : list Z) : merge A B = list_merge Z.le A B.
Proof.
  revert B. induction A as [| x A IHA]; intros B.
  { by destruct B. }
  induction B as [| y B IHB]; [done |].
  simpl. simpl in IHB. rewrite IHA, IHB.
  destruct (x <=? y) eqn:E; case_decide; try done; lia.
Qed.

Lemma merge_sorted (A B : list Z) : sorted A -> sorted B -> sorted (merge A B).
Proof.
  intros HA HB. rewrite merge_list_merge.
  apply Sorted_StronglySorted; [apply _ |].
  apply Sorted_list_merge; [apply _ | by apply StronglySorted_Sorted ..].
Qed.

Lemma merge_perm (A B : list Z) : merge A B ≡ₚ A ++ B.
Proof. rewrite merge_list_merge. apply merge_Permutation. Qed.

(** ** An ascending list cut where its two halves meet *)

(** When an ascending list [M] is a rearrangement of [L ++ R] and nothing in
    [L] exceeds anything in [R], the greatest element of [L] sits in [M] just
    before position [length L], and the least element of [R] sits at it. *)
Lemma sorted_split (M L R : list Z) :
  sorted M -> M ≡ₚ L ++ R ->
  (forall x y, x ∈ L -> y ∈ R -> x <= y) ->
  M = merge_sort Z.le L ++ merge_sort Z.le R.
Proof.
  intros HM Hperm Hcross.
  apply (StronglySorted_unique Z.le); [done | |].
  - apply StronglySorted_app. split_and!.
    + intros x y Hx Hy. apply Hcross.
      * by rewrite <- (merge_sort_Permutation Z.le L).
      * by rewrite <- (merge_sort_Permutation Z.le R).
    + apply StronglySorted_merge_sort; apply _.
    + apply StronglySorted_merge_sort; apply _.
  - by rewrite !merge_sort_Permutation.
Qed.

Lemma sorted_split_left (M L R : list Z) (v : Z) :
  sorted M -> M ≡ₚ L ++ R ->
  (forall x y, x ∈ L -> y ∈ R -> x <= y) ->
  v ∈ L -> (forall x, x ∈ L -> x <= v) ->
  M !! (length L - 1)%nat = Some v.
Proof.
  intros HM Hperm Hcross Hv Hmax.
  rewrite (sorted_split M L R) by done.
  pose proof (StronglySorted_merge_sort Z.le L) as HsL.
  pose proof (merge_sort_Permutation Z.le L) as HpL.
  rewrite <- (Permutation_length HpL).
  setoid_rewrite <- HpL in Hv. setoid_rewrite <- HpL in Hmax.
  destruct (merge_sort Z.le L) as [| a l'] using rev_ind; [by apply elem_of_nil in Hv |].
  clear IHl'.
  rewrite length_app. simpl.
  replace (length l' + 1 - 1)%nat with (length l') by lia.
  rewrite <- app_assoc. simpl. rewrite list_lookup_middle by done.
  f_equal. apply Z.le_antisymm.
  - apply Hmax, elem_of_app. right. apply list_elem_of_here.
  - apply elem_of_app in Hv as [Hv | Hv%list_elem_of_singleton]; [| lia].
    apply StronglySorted_app in HsL as (Hle & _ & _).
    apply Hle; [done | apply list_elem_of_here].
Qed.

Lemma sorted_split_right (M L R : list Z) (v : Z) :
  sorted M -> M ≡ₚ L ++ R ->
  (forall x y, x ∈ L -> y ∈ R -> x <= y) ->
  v ∈ R -> (forall y, y ∈ R -> v <= y) ->
  M !! length L = Some v.
Proof.
  intros HM Hperm Hcross Hv Hmin.
  rewrite (sorted_split M L R) by done.
  pose proof (StronglySorted_merge_sort Z.le R) as HsR.
  pose proof (merge_sort_Permutation Z.le R) as HpR.
  rewrite <- (Permutation_length (merge_sort_Permutation Z.le L)).
  setoid_rewrite <- HpR in Hv. setoid_rewrite <- HpR in Hmin.
  destruct (merge_sort Z.le R) as [| a r']; [by apply elem_of_nil in Hv |].
  rewrite list_lookup_middle by done.
  f_equal. apply Z.le_antisymm.
  - apply elem_of_cons in Hv as [-> | Hv]; [lia |].
    apply StronglySorted_inv in HsR as [_ Hall].
    rewrite Forall_forall in Hall. by apply Hall.
  - apply Hmin, list_elem_of_here.
Qed.

(** ** The boundary values of two ascending lists *)

Section Boundaries.

Variables X Y : list Z.
Hypothesis HX : sorted X.
Hypothesis HY : sorted Y.
Variables p q : Z.
Hypothesis Hp : 0 <= p <= len X.
Hypothesis Hq : 0 <= q <= len Y.

(** [maxLeft X p <= minRight Y q] puts the part of [X] left of its cut
    below the part of [Y] right of its cut. *)
Lemma cross_le (x y : Z) :
  num_le (left_val X p) (right_val Y q) = true ->
  x ∈ take (Z.to_nat p) X -> y ∈ drop (Z.to_nat q) Y -> x <= y.
Proof.
  unfold left_val, right_val, len in *. intros Hle Hx Hy.
  destruct (p =? 0) eqn:E0.
  { replace p with 0 in Hx by lia. by apply elem_of_nil in Hx. }
  destruct (q =? Z.of_nat (length Y)) eqn:E1.
  { rewrite drop_ge in Hy by lia. by apply elem_of_nil in Hy. }
  rewrite num_le_of_int in Hle.
  apply (take_le_last X HX) in Hx; [| lia].
  apply (drop_ge_first Y HY) in Hy; [| lia].
  replace (Z.to_nat (p - 1)) with (Z.to_nat p - 1)%nat in Hle by lia.
  lia.
Qed.

(** [max(maxLeft X p, maxLeft Y q)] is the greatest element left of the
    two cuts. *)
Lemma left_max :
  0 < p + q ->
  exists v, num_max (left_val X p) (left_val Y q) = of_int v /\
    v ∈ take (Z.to_nat p) X ++ take (Z.to_nat q) Y /\
    forall x, x ∈ take (Z.to_nat p) X ++ take (Z.to_nat q) Y -> x <= v.
Proof.
  unfold left_val, len in *. intros Hpos.
  replace (Z.to_nat (p - 1)) with (Z.to_nat p - 1)%nat by lia.
  replace (Z.to_nat (q - 1)) with (Z.to_nat q - 1)%nat by lia.
  pose proof (last_in_take X (Z.to_nat p)) as HinX.
  pose proof (last_in_take Y (Z.to_nat q)) as HinY.
  pose proof (take_le_last X HX (Z.to_nat p)) as HleX.
  pose proof (take_le_last Y HY (Z.to_nat q)) as HleY.
  destruct (p =? 0) eqn:Ep, (q =? 0) eqn:Eq; [lia | | |].
  - eexists. split; [reflexivity |].
    replace p with 0 by lia. simpl. split; [apply HinY; lia |].
    intros x Hx. apply HleY; [lia | done].
  - eexists. split; [reflexivity |].
    replace q with 0 by lia. simpl. rewrite app_nil_r.
    split; [apply HinX; lia |]. intros x Hx. apply HleX; [lia | done].
  - eexists. split; [apply num_max_of_int |]. split.
    + apply elem_of_app.
      destruct (Z.max_spec (nth (Z.to_nat p - 1) X 0) (nth (Z.to_nat q - 1) Y 0))
        as [[_ ->] | [_ ->]]; [right; apply HinY | left; apply HinX]; lia.
    + intros x [Hx | Hx]%elem_of_app.
      * apply HleX in Hx; lia.
      * apply HleY in Hx; lia.
Qed.

(** [min(minRight X p, minRight Y q)] is the least element right of the
    two cuts. *)
Lemma right_min :
  p + q < len X + len Y ->
  exists v, num_min (right_val X p) (right_val Y q) = of_int v /\
    v ∈ drop (Z.to_nat p) X ++ drop (Z.to_nat q) Y /\
    forall y, y ∈ drop (Z.to_nat p) X ++ drop (Z.to_nat q) Y -> v <= y.
Proof.
  unfold right_val, len in *. intros Hlt.
  pose proof (first_in_drop X (Z.to_nat p)) as HinX.
  pose proof (first_in_drop Y (Z.to_nat q)) as HinY.
  pose proof (drop_ge_first X HX (Z.to_nat p)) as HleX.
  pose proof (drop_ge_first Y HY (Z.to_nat q)) as HleY.
  destruct (p =? Z.of_nat (length X)) eqn:Ep,
           (q =? Z.of_nat (length Y)) eqn:Eq; [lia | | |].
  - eexists. split; [reflexivity |].
    rewrite (drop_ge X) by lia. simpl. split; [apply HinY; lia |].
    intros y Hy. apply HleY; [lia | done].
  - eexists. split; [reflexivity |].
    rewrite (drop_ge Y) by lia. rewrite app_nil_r.
    split; [apply HinX; lia |]. intros y Hy. apply HleX; [lia | done].
  - eexists. split; [apply num_min_of_int |]. split.
    + apply elem_of_app.
      destruct (Z.min_spec (nth (Z.to_nat p) X 0) (nth (Z.to_nat q) Y 0))
        as [[_ ->] | [_ ->]]; [left; apply HinX | right; apply HinY]; lia.
    + intros y [Hy | Hy]%elem_of_app.
      * apply HleX in Hy; lia.
      * apply HleY in Hy; lia.
Qed.

End Boundaries.

(** ** A cut that passes the test gives the median *)

Lemma half_even (a : nat) : (2 * a / 2)%nat = a.
Proof. rewrite (Nat.mul_comm 2 a). by apply Nat.div_mul. Qed.

Lemma half_odd (a : nat) : ((2 * a + 1) / 2)%nat = a.
Proof.
  rewrite (Nat.mul_comm 2 a), Nat.div_add_l by done.
  change (1 / 2)%nat with 0%nat. lia.
Qed.

Section Median.

Variables nums1 nums2 M : list Z.
Hypothesis Hsorted1 : sorted nums1.
Hypothesis Hsorted2 : sorted nums2.
Hypothesis HsortedM : sorted M.
Hypothesis Hperm : M ≡ₚ nums1 ++ nums2.
Hypothesis Hshorter : len nums1 <= len nums2.
Hypothesis Hnonempty : 0 < len nums1 + len nums2.

Local Abbreviation m := (len nums1).
Local Abbreviation n := (len nums2).

Variable p : Z.
Hypothesis Hp : 0 <= p <= m.
Hypothesis Hleft : good_left nums1 nums2 p.
Hypothesis Hright : good_right nums1 nums2 p.

Local Abbreviation q := (partition2 m n p).
Local Abbreviation L := (take (Z.to_nat p) nums1 ++ take (Z.to_nat q) nums2).
Local Abbreviation R := (drop (Z.to_nat p) nums1 ++ drop (Z.to_nat q) nums2).

Lemma cut_in_range : 0 <= q <= n.
Proof. apply partition2_in_range; lia. Qed.

Lemma cut_perm : M ≡ₚ L ++ R.
Proof.
  rewrite Hperm.
  rewrite <- (take_drop (Z.to_nat p) nums1) at 1.
  rewrite <- (take_drop (Z.to_nat q) nums2) at 1.
  rewrite <- !app_assoc. apply Permutation_app_head.
  rewrite !app_assoc. apply Permutation_app_tail, Permutation_app_comm.
Qed.

Lemma cut_cross (x y : Z) : x ∈ L -> y ∈ R -> x <= y.
Proof.
  pose proof cut_in_range.
  intros [Hx | Hx]%elem_of_app [Hy | Hy]%elem_of_app.
  - by eapply (take_le_drop nums1).
  - by eapply (cross_le nums1 nums2 Hsorted1 Hsorted2 p q).
  - by eapply (cross_le nums2 nums1 Hsorted2 Hsorted1 q p).
  - by eapply (take_le_drop nums2).
Qed.

Lemma cut_length : Z.of_nat (length L) = (m + n + 1) / 2.
Proof.
  pose proof cut_in_range. unfold len in *.
  rewrite length_app, !length_take_le by lia.
  unfold partition2 in *. lia.
Qed.

Lemma median_at_cut : answer (result_at nums1 nums2 p) = middle_outcome M.
Proof.
  pose proof cut_in_range as Hq. pose proof cut_length as HlenL.
  assert (HlenM : Z.of_nat (length M) = m + n).
  { rewrite (Permutation_length Hperm), length_app. unfold len. lia. }
  destruct (left_max nums1 nums2 Hsorted1 Hsorted2 p q Hp Hq)
    as (v & Hv & HvL & Hvmax).
  { unfold partition2. Z.div_mod_to_equations. lia. }
  pose proof (sorted_split_left M L R v HsortedM cut_perm cut_cross HvL Hvmax)
    as Hlow.
  unfold middle_outcome, result_at, returned. rewrite Hv.
  destruct (Nat.even (length M)) eqn:Heven.
  - apply Nat.even_spec in Heven as [a Ha].
    assert (Hmod : ((m + n) mod 2 =? 0) = true)
      by (rewrite <- HlenM, Ha; Z.div_mod_to_equations; lia).
    rewrite Hmod.
    destruct (right_min nums1 nums2 Hsorted1 Hsorted2 p q Hp Hq)
      as (w & Hw & HwR & Hwmin).
    { unfold partition2. Z.div_mod_to_equations. lia. }
    pose proof (sorted_split_right M L R w HsortedM cut_perm cut_cross HwR Hwmin)
      as Hhigh.
    assert (Ha' : length L = a) by (Z.div_mod_to_equations; lia).
    rewrite Ha, half_even, <- Ha', Hlow, Hhigh, Hw. reflexivity.
  - apply (f_equal negb) in Heven. rewrite Nat.negb_even in Heven.
    apply Nat.odd_spec in Heven as [a Ha].
    assert (Hmod : ((m + n) mod 2 =? 0) = false)
      by (rewrite <- HlenM, Ha; Z.div_mod_to_equations; lia).
    rewrite Hmod.
    assert (Ha' : (length L - 1)%nat = a) by (Z.div_mod_to_equations; lia).
    rewrite Ha, half_odd, <- Ha', Hlow. reflexivity.
Qed.

End Median.

(** ** The states of the loop and the value of the call *)

Lemma reachable_bounds (nums1 nums2 : list Z) (m n left right : Z) :
  0 <= m -> reachable nums1 nums2 m n left right -> 0 <= left /\ right <= m.
Proof.
  intros Hm. induction 1 as [| left right left' right' _ IH Hle Hit]; [lia |].
  pose proof (partition1_between _ _ Hle).
  destruct (iteration_Narrow_inv _ _ _ _ _ _ _ _ Hit) as [[-> ->] | [-> ->]]; lia.
Qed.

(** The outcome of the loop, when it is a value or an exception, is that of
    a pass from a reachable state in which the loop condition holds. *)
Lemma search_ends_at (nums1 nums2 : list Z) (m n : Z) (k : nat) :
  forall left right,
    (Z.to_nat (right - left + 1) < k)%nat ->
    reachable nums1 nums2 m n left right ->
    search nums1 nums2 m n left right <> Ok None ->
    exists left' right',
      reachable nums1 nums2 m n left' right' /\ left' <= right' /\
      ((exists v, iteration nums1 nums2 m n left' right' = Ok (Return v) /\
                  search nums1 nums2 m n left right = Ok (Some v)) \/
       (exists e, iteration nums1 nums2 m n left' right' = Raise e /\
                  search nums1 nums2 m n left right = Raise e)).
Proof.
  induction k as [| k IH]; intros left right Hk Hreach Hret; [lia |].
  rewrite search_eq in Hret |- *.
  destruct (left <=? right) eqn:E; [| done].
  apply Z.leb_le in E.
  destruct (iteration nums1 nums2 m n left right) as [[v | left' right'] | e]
    eqn:Hit.
  - exists left, right. split_and!; [done | done |]. left. by exists v.
  - destruct (IH left' right') as (l & r & ? & ? & Hend);
      [| by eapply reach_next | done |].
    { pose proof (iteration_narrows _ _ _ _ _ _ _ _ E Hit). lia. }
    exists l, r. split_and!; [done | done |].
    destruct Hend as [(v & ? & ?) | (e & ? & ?)]; [left | right]; eauto.
  - exists left, right. split_and!; [done | done |]. right. by exists e.
Qed.

Lemma shorter_first_spec (A B nums1 nums2 : list Z) :
  shorter_first A B = (nums1, nums2) ->
  len nums1 <= len nums2 /\
  ((nums1 = A /\ nums2 = B) \/ (nums1 = B /\ nums2 = A)).
Proof.
  unfold shorter_first. destruct (len A >? len B) eqn:E; intros [= <- <-].
  - split; [lia | by right].
  - split; [lia | by left].
Qed.

Lemma findMedian_search (A B nums1 nums2 : list Z) :
  shorter_first A B = (nums1, nums2) ->
  findMedianSortedArrays A B =
  search nums1 nums2 (len nums1) (len nums2) 0 (len nums1).
Proof. unfold findMedianSortedArrays. by intros ->. Qed.

Lemma not_both_empty (A B : list Z) :
  ~ (A = [] /\ B = []) -> 0 < len A + len B.
Proof.
  intros H. unfold len. destruct A, B; simpl; try lia. by destruct H.
Qed.

(** The outcome of the call is that of the return statement at a cut that
    passes the test; this needs no order on the inputs. *)
Lemma findMedian_at_cut (A B nums1 nums2 : list Z) :
  shorter_first A B = (nums1, nums2) ->
  exists p, 0 <= p <= len nums1 /\
    good_left nums1 nums2 p /\ good_right nums1 nums2 p /\
    findMedianSortedArrays A B = answer (result_at nums1 nums2 p).
Proof.
  intros Hsf. rewrite (findMedian_search _ _ _ _ Hsf).
  apply search_finds. by apply shorter_first_spec in Hsf as [? _].
Qed.

(** On ascending inputs, not both empty, the call takes the median of the
    merge. *)
Lemma findMedian_merged (A B : list Z) :
  sorted A -> sorted B -> 0 < len A + len B ->
  findMedianSortedArrays A B = middle_outcome (merge A B).
Proof.
  intros HA HB Hne.
  destruct (shorter_first A B) as [nums1 nums2] eqn:Hsf.
  destruct (findMedian_at_cut A B nums1 nums2 Hsf) as (p & Hp & HL & HR & ->).
  pose proof (merge_sorted A B HA HB) as HM.
  pose proof (merge_perm A B) as Hperm.
  apply shorter_first_spec in Hsf as [Hle [[-> ->] | [-> ->]]].
  - by apply median_at_cut.
  - apply median_at_cut; try done; [| lia].
    by rewrite Hperm, Permutation_app_comm.
Qed.


Lemma nth_lookup_lt (l : list Z) (i : nat) :
  (i < length l)%nat -> l !! i = Some (nth i l 0).
Proof.
  intros Hi. by destruct (nth_lookup_or_length l i 0) as [Hn | ?]; [| lia].
Qed.

(** The two ways of taking the median of a list that is not empty. *)
Lemma middle_outcome_python (M : list Z) :
  M <> [] -> python_median M (middle_outcome M).
Proof.
  intros HM.
  assert (Hlen : (0 < length M)%nat) by (destruct M; [done | simpl; lia]).
  unfold python_median, middle_outcome.
  destruct (Nat.even (length M)) eqn:Heven.
  - apply Nat.even_spec in Heven as [a Ha].
    rewrite Ha, half_even, !nth_lookup_lt by lia.
    eexists _, _. split_and!; [done | done | apply num_div2_halves].
  - apply (f_equal negb) in Heven. rewrite Nat.negb_even in Heven.
    apply Nat.odd_spec in Heven as [a Ha].
    rewrite Ha, half_odd, !nth_lookup_lt by lia. by eexists.
Qed.

(** A median taken the way the function takes it, against the exact one:
    they agree when the length is odd, and when the two middle elements add
    up to at most [2 ** 53] in magnitude. *)
Lemma python_median_middle (M : list Z) (r : res (option value)) :
  python_median M r ->
  exists q, middle M = Some q /\
    (Nat.even (length M) = false \/
     (forall x, x ∈ M -> Z.abs x <= 2 ^ 52) ->
     returns_exactly r q).
Proof.
  unfold python_median, middle.
  destruct (Nat.even (length M)) eqn:Heven.
  - intros (x & y & Hx & Hy & Hexact & _). rewrite Hx, Hy.
    eexists. split; [done |].
    intros [? | Hsmall]; [done |].
    assert (Z.abs x <= 2 ^ 52) by (eapply Hsmall, list_elem_of_lookup_2; done).
    assert (Z.abs y <= 2 ^ 52) by (eapply Hsmall, list_elem_of_lookup_2; done).
    rewrite Hexact by (pow2 52; pow2 53; lia).
    eexists. split; [done |]. simpl. by apply Qeq_bool_iff.
  - intros (x & -> & ->). eexists. split; [done |]. intros _.
    eexists. split; [done |]. simpl. by apply Qeq_bool_iff.
Qed.

(** The boundary expressions give an int or a sentinel, and the sentinel
    exactly at the end of the list. *)
Lemma maxLeft_inv (nums : list Z) (p : Z) (v : num) :
  maxLeft nums p = Ok v -> ordered v /\ (p = 0 -> v = NegInf).
Proof.
  unfold maxLeft, ordered. destruct (p =? 0) eqn:E.
  - intros [= <-]. done.
  - destruct (getitem nums (p - 1)); cbn; intros [= <-]. split; [done | lia].
Qed.

Lemma minRight_inv (nums : list Z) (size p : Z) (v : num) :
  minRight nums size p = Ok v -> ordered v /\ (p = size -> v = PosInf).
Proof.
  unfold minRight, ordered. destruct (p =? size) eqn:E.
  - intros [= <-]. done.
  - destruct (getitem nums p); cbn; intros [= <-]. split; [done | lia].
Qed.

Lemma ceil_half_spec (x : Z) : (x + 1) / 2 = ceil_half x.
Proof. unfold ceil_half. Z.div_mod_to_equations. lia. Qed.

(** ** The three cases of a pass, at a cut inside the list *)

Section Cases.

Variables nums1 nums2 : list Z.
Hypothesis Hshorter : len nums1 <= len nums2.
Variable p : Z.
Hypothesis Hp : 0 <= p <= len nums1.

Lemma cut2_in_range : 0 <= partition2 (len nums1) (len nums2) p <= len nums2.
Proof. apply partition2_in_range; lia. Qed.

Lemma overshoots_iff : overshoots nums1 nums2 p <-> ~ good_left nums1 nums2 p.
Proof.
  pose proof cut2_in_range as Hq.
  unfold overshoots, good_left.
  rewrite maxLeft_in_range, minRight_in_range by done. split.
  - intros (a & b & [= <-] & [= <-] & Hgt).
    rewrite num_gt_not_le in Hgt
      by auto using left_val_ordered, right_val_ordered.
    apply negb_true_iff in Hgt. congruence.
  - intros Hbad%not_true_is_false. eexists _, _. split_and!; [done .. |].
    rewrite num_gt_not_le by auto using left_val_ordered, right_val_ordered.
    by rewrite Hbad.
Qed.

Lemma undershoots_iff : undershoots nums1 nums2 p <-> ~ good_right nums1 nums2 p.
Proof.
  pose proof cut2_in_range as Hq.
  unfold undershoots, good_right.
  rewrite maxLeft_in_range, minRight_in_range by done. split.
  - intros (a & b & [= <-] & [= <-] & Hgt).
    rewrite num_gt_not_le in Hgt
      by auto using left_val_ordered, right_val_ordered.
    apply negb_true_iff in Hgt. congruence.
  - intros Hbad%not_true_is_false. eexists _, _. split_and!; [done .. |].
    rewrite num_gt_not_le by auto using left_val_ordered, right_val_ordered.
    by rewrite Hbad.
Qed.

Lemma passes_test_iff :
  passes_test nums1 nums2 p <->
  good_left nums1 nums2 p /\ good_right nums1 nums2 p.
Proof.
  pose proof cut2_in_range as Hq.
  unfold passes_test, good_left, good_right.
  rewrite !maxLeft_in_range, !minRight_in_range by done. split.
  - intros (a & b & c & d & [= <-] & [= <-] & [= <-] & [= <-] & Ht).
    by apply andb_prop in Ht.
  - intros [HL HR]. eexists _, _, _, _. split_and!; [done .. |].
    by rewrite HL, HR.
Qed.

End Cases.

(** ** What the return statement can raise *)

Lemma num_add_raise (a b : num) (e : exn) :
  num_add a b = Raise e -> e = OverflowError.
Proof.
  destruct a, b; simpl; repeat case_match; congruence.
Qed.

Lemma num_div2_raise (a : num) (e : exn) :
  num_div2 a = Raise e -> e = OverflowError.
Proof.
  destruct a; simpl; repeat case_match; congruence.
Qed.

(** Only the sum and the division of the even case can raise, and they
    raise [OverflowError]. *)
Lemma returned_raise (even : bool) (max1 min1 max2 min2 : num) (e : exn) :
  returned even max1 min1 max2 min2 = Raise e ->
  even = true /\ e = OverflowError.
Proof.
  unfold returned. destruct even; [| done].
  destruct (num_add _ _) eqn:Hadd; cbn.
  - intros ?%num_div2_raise. done.
  - intros [= <-]. by apply num_add_raise in Hadd.
Qed.

Lemma answer_not_None (r : res value) : answer r <> Ok None.
Proof. unfold answer. by destruct r. Qed.

Lemma answer_raise (r : res value) (e : exn) :
  answer r = Raise e -> r = Raise e.
Proof. unfold answer. destruct r; cbn; congruence. Qed.

(** The sum of two ints is exact, so the even case on two elements halves
    their sum. *)
Lemma returned_ints (x y : Z) (max1 min1 max2 min2 : num) :
  num_max max1 max2 = Int x -> num_min min1 min2 = Int y ->
  returned true max1 min1 max2 min2 = num_div2 (Int (x + y)).
Proof. unfold returned. by intros -> ->. Qed.


Lemma merge_length (A B : list Z) :
  Z.of_nat (length (merge A B)) = len A + len B.
Proof. rewrite (Permutation_length (merge_perm A B)), length_app. unfold len. lia. Qed.

Lemma odd_length (M : list Z) :
  Z.of_nat (length M) mod 2 = 1 -> Nat.even (length M) = false.
Proof.
  intros Hodd. destruct (Nat.even (length M)) eqn:E; [| done].
  apply Nat.even_spec in E as [a Ha]. rewrite Ha in Hodd.
  Z.div_mod_to_equations. lia.
Qed.

Lemma even_length (M : list Z) :
  Z.of_nat (length M) mod 2 = 0 -> Nat.even (length M) = true.
Proof.
  intros Hev. destruct (Nat.even (length M)) eqn:E; [done |].
  apply (f_equal negb) in E. rewrite Nat.negb_even in E.
  apply Nat.odd_spec in E as [a Ha]. rewrite Ha in Hev.
  Z.div_mod_to_equations. lia.
Qed.


(** * The claims *)

(** C1, as the code has it. For ascending [A] and [B], not both empty, the
    call takes the median of the merged order the way Python computes it:
    when the combined length is odd it returns the middle element of
    [merge A B] as an int; when it is even it halves the sum [s] of the two
    middle elements by [/ 2], which returns the exact mean when
    [|s| <= 2 ** 53], a float within [|s| / 2 ** 54] of the mean when
    [|s| < 2 ** 1025 - 2 ** 971], and raises [OverflowError] from there on.
    The value returned equals the median whenever the combined length is odd
    or every element is at most [2 ** 52] in magnitude. *)
Theorem C1_median_rounded (A B : list Z) :
  ascending A = true -> ascending B = true -> ~ (A = [] /\ B = []) ->
  exists q, merged_median A B = Some q /\
    python_median (merge A B) (findMedianSortedArrays A B) /\
    ((len A + len B) mod 2 = 1 \/
     (forall x, x ∈ A \/ x ∈ B -> Z.abs x <= 2 ^ 52) ->
     returns_exactly (findMedianSortedArrays A B) q).
Proof.
  intros HA%ascending_sorted HB%ascending_sorted Hne%not_both_empty.
  rewrite (findMedian_merged A B HA HB Hne).
  assert (HM : merge A B <> []).
  { intros E. pose proof (merge_length A B) as Hlen. rewrite E in Hlen.
    simpl in Hlen. lia. }
  pose proof (middle_outcome_python _ HM) as Hpy.
  destruct (python_median_middle _ _ Hpy) as (q & Hq & Hexact).
  exists q. split_and!; [done | done |].
  intros [Hodd | Hsmall]; apply Hexact.
  - left. apply odd_length. by rewrite merge_length.
  - right. intros x Hx. apply Hsmall.
    rewrite merge_perm in Hx. by apply elem_of_app in Hx.
Qed.

Lemma C1_median_rounded_witness :
  exists q, merged_median [1; 3; 8] [2; 7; 9] = Some q /\
    python_median (merge [1; 3; 8] [2; 7; 9])
      (findMedianSortedArrays [1; 3; 8] [2; 7; 9]) /\
    ((len [1; 3; 8] + len [2; 7; 9]) mod 2 = 1 \/
     (forall x, x ∈ [1; 3; 8] \/ x ∈ [2; 7; 9] -> Z.abs x <= 2 ^ 52) ->
     returns_exactly (findMedianSortedArrays [1; 3; 8] [2; 7; 9]) q).
Proof.
  apply (C1_median_rounded [1; 3; 8] [2; 7; 9]);
    [reflexivity | reflexivity | intros [H _]; discriminate H].
Defined.

(** C1, as stated, fails: on the ascending lists [[2 ** 53 + 1]] and
    [[2 ** 53 + 1]] the median of the merged order is [2 ** 53 + 1], and the
    call returns the float [2 ** 53]. *)
Lemma C1_exact_mean_fails :
  ascending [2 ^ 53 + 1] = true /\
  ~ ([2 ^ 53 + 1] = [] /\ [2 ^ 53 + 1] = []) /\
  findMedianSortedArrays [2 ^ 53 + 1] [2 ^ 53 + 1] =
    Ok (Some (Finite (inject_Z (2 ^ 54) / 2)%Q)) /\
  ~ exists q, merged_median [2 ^ 53 + 1] [2 ^ 53 + 1] = Some q /\
      returns_exactly (findMedianSortedArrays [2 ^ 53 + 1] [2 ^ 53 + 1]) q.
Proof.
  split_and!; [reflexivity | by intros [H _] | vm_compute; reflexivity |].
  intros (q & Hq & v & Hv & His).
  vm_compute in Hq. injection Hq as <-.
  vm_compute in Hv. injection Hv as <-.
  vm_compute in His. discriminate His.
Qed.

(** C2, as the code has it. On two empty lists the call raises nothing: the
    test of the first pass holds on the four sentinels, the combined length 0
    is even, and the value returned is [(-inf + inf) / 2], which is NaN. *)
Theorem C2_both_empty_returns_nan :
  iteration [] [] 0 0 0 0 = Ok (Return (Plain NaN)) /\
  num_add NegInf PosInf = Ok NaN /\
  num_div2 NaN = Ok (Plain NaN) /\
  findMedianSortedArrays [] [] = Ok (Some (Plain NaN)).
Proof. repeat split; vm_compute; reflexivity. Qed.

(** C2, as stated, fails: on two empty lists no exception is raised, and
    the call returns NaN. *)
Lemma C2_both_empty_no_error :
  ~ raises (findMedianSortedArrays [] []) /\
  findMedianSortedArrays [] [] = Ok (Some (Plain NaN)).
Proof.
  assert (Hret : findMedianSortedArrays [] [] = Ok (Some (Plain NaN)))
    by (vm_compute; reflexivity).
  split; [| done]. intros [e He]. rewrite Hret in He. discriminate He.
Qed.

(** C3. In every pass of the loop the two cuts add up to
    [ceil((m + n) / 2)], where [m] and [n] are the lengths of the lists after
    the swap that puts the shorter one first. *)
Theorem C3_cuts_sum (A B nums1 nums2 : list Z) (left right : Z) :
  shorter_first A B = (nums1, nums2) ->
  reachable nums1 nums2 (len nums1) (len nums2) left right ->
  left <= right ->
  partition1 left right
    + partition2 (len nums1) (len nums2) (partition1 left right)
  = ceil_half (len nums1 + len nums2).
Proof.
  intros _ _ _. rewrite <- ceil_half_spec. unfold partition2. lia.
Qed.

Lemma C3_cuts_sum_witness :
  partition1 0 1 + partition2 (len [2]) (len [1; 3]) (partition1 0 1)
  = ceil_half (len [2] + len [1; 3]).
Proof.
  apply (C3_cuts_sum [1; 3] [2] [2] [1; 3] 0 1);
    [reflexivity | apply reach_start | lia].
Defined.

(** C4, as the code has it. For ascending inputs, not both empty, the loop
    condition holds every time it is evaluated, so the call never leaves the
    loop without a [return]; it ends in a pass whose test
    [max1 <= min2 and max2 <= min1] holds.  That pass returns a value, which
    is the value of the call, or, when the combined length is even, it raises
    [OverflowError] from the division, and so does the call. *)
Theorem C4_ends_in_passing_test (A B nums1 nums2 : list Z) :
  ascending A = true -> ascending B = true -> ~ (A = [] /\ B = []) ->
  shorter_first A B = (nums1, nums2) ->
  (forall left right,
     reachable nums1 nums2 (len nums1) (len nums2) left right ->
     left <= right) /\
  findMedianSortedArrays A B <> Ok None /\
  (exists left right,
     reachable nums1 nums2 (len nums1) (len nums2) left right /\
     left <= right /\
     passes_test nums1 nums2 (partition1 left right) /\
     ((exists v,
         iteration nums1 nums2 (len nums1) (len nums2) left right
           = Ok (Return v) /\
         findMedianSortedArrays A B = Ok (Some v)) \/
      ((len A + len B) mod 2 = 0 /\
       iteration nums1 nums2 (len nums1) (len nums2) left right
         = Raise OverflowError /\
       findMedianSortedArrays A B = Raise OverflowError))).
Proof.
  intros _ _ _ Hsf.
  pose proof (shorter_first_spec _ _ _ _ Hsf) as [Hle Hcases].
  assert (Hlen : len nums1 + len nums2 = len A + len B)
    by (destruct Hcases as [[-> ->] | [-> ->]]; lia).
  destruct (findMedian_at_cut A B nums1 nums2 Hsf) as (p0 & _ & _ & _ & Hret).
  assert (Hnone : findMedianSortedArrays A B <> Ok None)
    by (rewrite Hret; apply answer_not_None).
  split_and!; [| done |].
  - intros left right Hreach.
    by apply (reachable_inv nums1 nums2 Hle) in Hreach as (_ & ? & _).
  - rewrite (findMedian_search _ _ _ _ Hsf) in Hnone |- *.
    eapply search_ends_at in Hnone as (left & right & Hreach & Hlr & Hend);
      [| apply Nat.lt_succ_diag_r | apply reach_start].
    exists left, right.
    pose proof (reachable_inv nums1 nums2 Hle _ _ Hreach) as Hinv.
    pose proof Hinv as (H0 & _ & Hr & _).
    pose proof (partition1_between _ _ Hlr) as Hp.
    destruct (inv_step nums1 nums2 Hle left right Hinv)
      as [(HL & HR & Hit) | (l' & r' & Hit & _)].
    + split_and!; [done | done | apply passes_test_iff; [done | lia | done] |].
      destruct Hend as [(v & Hv & ?) | (e & He & Hs)]; [left; by exists v |].
      right. rewrite Hit in He.
      destruct (result_at nums1 nums2 (partition1 left right)) as [v | e']
        eqn:Hres; [done |].
      cbn in He. injection He as <-.
      apply returned_raise in Hres as [Heven ->].
      split_and!; [| by rewrite Hit | done].
      rewrite <- Hlen. by apply Z.eqb_eq.
    + exfalso. rewrite Hit in Hend.
      by destruct Hend as [(v & ? & _) | (e & ? & _)].
Qed.

Lemma C4_ends_in_passing_test_witness :
  (forall left right,
     reachable [2] [1; 3] (len [2]) (len [1; 3]) left right -> left <= right) /\
  findMedianSortedArrays [1; 3] [2] <> Ok None /\
  (exists left right,
     reachable [2] [1; 3] (len [2]) (len [1; 3]) left right /\
     left <= right /\
     passes_test [2] [1; 3] (partition1 left right) /\
     ((exists v,
         iteration [2] [1; 3] (len [2]) (len [1; 3]) left right
           = Ok (Return v) /\
         findMedianSortedArrays [1; 3] [2] = Ok (Some v)) \/
      ((len [1; 3] + len [2]) mod 2 = 0 /\
       iteration [2] [1; 3] (len [2]) (len [1; 3]) left right
         = Raise OverflowError /\
       findMedianSortedArrays [1; 3] [2] = Raise OverflowError))).
Proof.
  apply (C4_ends_in_passing_test [1; 3] [2] [2] [1; 3]);
    [reflexivity | reflexivity | intros [H _]; discriminate H | reflexivity].
Defined.

(** C4, as stated, fails: on the ascending lists [[10 ** 400]] and
    [[10 ** 400]] the test passes in the first pass and the call raises
    [OverflowError]; no result is returned. *)
Lemma C4_overflow_no_result :
  ascending [10 ^ 400] = true /\
  ~ ([10 ^ 400] = [] /\ [10 ^ 400] = []) /\
  findMedianSortedArrays [10 ^ 400] [10 ^ 400] = Raise OverflowError /\
  ~ exists v, findMedianSortedArrays [10 ^ 400] [10 ^ 400] = Ok (Some v).
Proof.
  assert (Hret : findMedianSortedArrays [10 ^ 400] [10 ^ 400]
                 = Raise OverflowError) by (vm_compute; reflexivity).
  split_and!; [reflexivity | by intros [H _] | done |].
  intros [v Hv]. rewrite Hret in Hv. discriminate Hv.
Qed.

(** C5. For any two lists, after the swap that puts the shorter one first,
    every pass has [partition1] in [[0, m]] and [partition2] in [[0, n]]; each
    of the four element reads that is not replaced by a sentinel has its index
    inside its list; the pass raises no [IndexError], and neither does the
    call. *)
Theorem C5_indices_in_bounds (A B nums1 nums2 : list Z) :
  shorter_first A B = (nums1, nums2) ->
  (forall left right,
     reachable nums1 nums2 (len nums1) (len nums2) left right ->
     left <= right ->
     let p1 := partition1 left right in
     let p2 := partition2 (len nums1) (len nums2) p1 in
     0 <= p1 <= len nums1 /\ 0 <= p2 <= len nums2 /\
     (p1 <> 0 -> 0 <= p1 - 1 < len nums1) /\
     (p1 <> len nums1 -> 0 <= p1 < len nums1) /\
     (p2 <> 0 -> 0 <= p2 - 1 < len nums2) /\
     (p2 <> len nums2 -> 0 <= p2 < len nums2) /\
     iteration nums1 nums2 (len nums1) (len nums2) left right
       <> Raise IndexError) /\
  findMedianSortedArrays A B <> Raise IndexError.
Proof.
  intros Hsf.
  pose proof (shorter_first_spec _ _ _ _ Hsf) as [Hle _].
  pose proof (len_nonneg nums1) as Hm.
  split.
  - intros left right Hreach Hlr p1 p2.
    apply reachable_bounds in Hreach as [H0 Hr]; [| done].
    pose proof (partition1_between _ _ Hlr) as Hp1. fold p1 in Hp1.
    pose proof (partition2_in_range (len nums1) (len nums2) p1) as Hp2.
    fold p2 in Hp2.
    repeat split; try lia.
    rewrite iteration_at by done. unfold verdict.
    destruct (_ && _); [| by destruct (num_gt _ _)].
    destruct (returned _ _ _ _ _) eqn:Hres; cbn; [done |].
    apply returned_raise in Hres as [_ ->]. done.
  - destruct (findMedian_at_cut A B nums1 nums2 Hsf) as (p & _ & _ & _ & ->).
    intros He%answer_raise. unfold result_at in He.
    by apply returned_raise in He as [_ ?].
Qed.

Lemma C5_indices_in_bounds_witness :
  (forall left right,
     reachable [9; 0] [5; 1; 4] (len [9; 0]) (len [5; 1; 4]) left right ->
     left <= right ->
     let p1 := partition1 left right in
     let p2 := partition2 (len [9; 0]) (len [5; 1; 4]) p1 in
     0 <= p1 <= len [9; 0] /\ 0 <= p2 <= len [5; 1; 4] /\
     (p1 <> 0 -> 0 <= p1 - 1 < len [9; 0]) /\
     (p1 <> len [9; 0] -> 0 <= p1 < len [9; 0]) /\
     (p2 <> 0 -> 0 <= p2 - 1 < len [5; 1; 4]) /\
     (p2 <> len [5; 1; 4] -> 0 <= p2 < len [5; 1; 4]) /\
     iteration [9; 0] [5; 1; 4] (len [9; 0]) (len [5; 1; 4]) left right
       <> Raise IndexError) /\
  findMedianSortedArrays [5; 1; 4] [9; 0] <> Raise IndexError.
Proof.
  apply (C5_indices_in_bounds [5; 1; 4] [9; 0] [9; 0] [5; 1; 4]). reflexivity.
Defined.




(** C7, as the code has it. In a pass whose four boundary values are [max1],
    [min1], [max2] and [min2] and whose test [max1 <= min2 and max2 <= min1]
    holds, the call ends: when [m + n] is odd it returns [max(max1, max2)];
    when [m + n] is even its outcome is that of evaluating
    [(max(max1, max2) + min(min1, min2)) / 2], which for two ints with sum
    [s] returns the exact half when [|s| <= 2 ** 53], a float within
    [|s| / 2 ** 54] of it when [|s| < 2 ** 1025 - 2 ** 971], and raises
    [OverflowError] from there on, and which for the two sentinels returns
    nan.  The boundary values are [-inf] at the cut 0 and [+inf] at the cut
    [m], respectively [n]. *)
Theorem C7_outcome_at_passing_test
    (nums1 nums2 : list Z) (m n left right : Z) (max1 min1 max2 min2 : num) :
  left <= right ->
  maxLeft nums1 (partition1 left right) = Ok max1 ->
  minRight nums1 m (partition1 left right) = Ok min1 ->
  maxLeft nums2 (partition2 m n (partition1 left right)) = Ok max2 ->
  minRight nums2 n (partition2 m n (partition1 left right)) = Ok min2 ->
  num_le max1 min2 && num_le max2 min1 = true ->
  search nums1 nums2 m n left right =
    (if (m + n) mod 2 =? 0
     then total ← num_add (num_max max1 max2) (num_min min1 min2);
          median ← num_div2 total;
          Ok (Some median)
     else Ok (Some (Plain (num_max max1 max2)))) /\
  ((m + n) mod 2 = 0 ->
   (forall x y,
      num_max max1 max2 = Int x -> num_min min1 min2 = Int y ->
      halves_to (x + y) (search nums1 nums2 m n left right)) /\
   (num_max max1 max2 = NegInf -> num_min min1 min2 = PosInf ->
    search nums1 nums2 m n left right = Ok (Some (Plain NaN)))) /\
  (partition1 left right = 0 -> max1 = NegInf) /\
  (partition1 left right = m -> min1 = PosInf) /\
  (partition2 m n (partition1 left right) = 0 -> max2 = NegInf) /\
  (partition2 m n (partition1 left right) = n -> min2 = PosInf).
Proof.
  intros Hlr H1 H2 H3 H4 Htest.
  assert (Hsearch : search nums1 nums2 m n left right =
            answer (returned ((m + n) mod 2 =? 0) max1 min1 max2 min2)).
  { rewrite search_eq, (iteration_verdict _ _ _ _ _ _ _ _ _ _ H1 H2 H3 H4).
    destruct (left <=? right) eqn:E; [| lia].
    unfold verdict, answer. rewrite Htest. by destruct (returned _ _ _ _ _). }
  split_and!.
  - rewrite Hsearch. unfold answer, returned.
    destruct (_ =? 0); [| done]. by destruct (num_add _ _).
  - intros Heven. rewrite Hsearch.
    apply Z.eqb_eq in Heven. rewrite Heven. split.
    + intros x y Hx Hy. rewrite (returned_ints x y) by done.
      apply num_div2_halves.
    + intros Hx Hy. unfold returned. by rewrite Hx, Hy.
  - by apply maxLeft_inv in H1 as [_ ?].
  - by apply minRight_inv in H2 as [_ ?].
  - by apply maxLeft_inv in H3 as [_ ?].
  - by apply minRight_inv in H4 as [_ ?].
Qed.

Lemma C7_outcome_at_passing_test_witness :
  search [1; 2] [3; 4] 2 2 2 2 =
    (if (2 + 2) mod 2 =? 0
     then total ← num_add (num_max (of_int 2) NegInf)
                          (num_min PosInf (of_int 3));
          median ← num_div2 total;
          Ok (Some median)
     else Ok (Some (Plain (num_max (of_int 2) NegInf)))) /\
  ((2 + 2) mod 2 = 0 ->
   (forall x y,
      num_max (of_int 2) NegInf = Int x -> num_min PosInf (of_int 3) = Int y ->
      halves_to (x + y) (search [1; 2] [3; 4] 2 2 2 2)) /\
   (num_max (of_int 2) NegInf = NegInf -> num_min PosInf (of_int 3) = PosInf ->
    search [1; 2] [3; 4] 2 2 2 2 = Ok (Some (Plain NaN)))) /\
  (partition1 2 2 = 0 -> of_int 2 = NegInf) /\
  (partition1 2 2 = 2 -> PosInf = PosInf) /\
  (partition2 2 2 (partition1 2 2) = 0 -> NegInf = NegInf) /\
  (partition2 2 2 (partition1 2 2) = 2 -> of_int 3 = PosInf).
Proof.
  apply (C7_outcome_at_passing_test [1; 2] [3; 4] 2 2 2 2
           (of_int 2) PosInf NegInf (of_int 3));
    [lia | reflexivity ..].
Defined.

(** C7, as stated, fails: in the first pass on [[10 ** 400]] and
    [[10 ** 400]] the test holds and [m + n] is even, and the division raises
    [OverflowError]; no value is returned. *)
Lemma C7_overflow_no_value :
  maxLeft [10 ^ 400] (partition1 0 1) = Ok NegInf /\
  minRight [10 ^ 400] 1 (partition1 0 1) = Ok (of_int (10 ^ 400)) /\
  maxLeft [10 ^ 400] (partition2 1 1 (partition1 0 1)) = Ok (of_int (10 ^ 400)) /\
  minRight [10 ^ 400] 1 (partition2 1 1 (partition1 0 1)) = Ok PosInf /\
  num_le NegInf PosInf && num_le (of_int (10 ^ 400)) (of_int (10 ^ 400)) = true /\
  (1 + 1) mod 2 = 0 /\
  search [10 ^ 400] [10 ^ 400] 1 1 0 1 = Raise OverflowError /\
  ~ exists v, search [10 ^ 400] [10 ^ 400] 1 1 0 1 = Ok (Some v).
Proof.
  assert (Hret : search [10 ^ 400] [10 ^ 400] 1 1 0 1 = Raise OverflowError)
    by (vm_compute; reflexivity).
  split_and!; try (vm_compute; reflexivity).
  intros [v Hv]. rewrite Hret in Hv. discriminate Hv.
Qed.

(** C8. In a pass whose test fails, [max1 > min2] sets [right] to
    [partition1 - 1]; otherwise [max2 > min1] holds and [left] is set to
    [partition1 + 1].  A pass that goes round again does one of the two. *)
Theorem C8_narrowing
    (nums1 nums2 : list Z) (m n left right : Z) (max1 min1 max2 min2 : num) :
  maxLeft nums1 (partition1 left right) = Ok max1 ->
  minRight nums1 m (partition1 left right) = Ok min1 ->
  maxLeft nums2 (partition2 m n (partition1 left right)) = Ok max2 ->
  minRight nums2 n (partition2 m n (partition1 left right)) = Ok min2 ->
  num_le max1 min2 && num_le max2 min1 = false ->
  (num_gt max1 min2 = true ->
   iteration nums1 nums2 m n left right =
     Ok (Narrow left (partition1 left right - 1))) /\
  (num_gt max1 min2 = false ->
   num_gt max2 min1 = true /\
   iteration nums1 nums2 m n left right =
     Ok (Narrow (partition1 left right + 1) right)) /\
  (forall left' right',
     iteration nums1 nums2 m n left right = Ok (Narrow left' right') ->
     (left' = left /\ right' = partition1 left right - 1) \/
     (left' = partition1 left right + 1 /\ right' = right)).
Proof.
  intros H1 H2 H3 H4 Htest.
  rewrite (iteration_verdict _ _ _ _ _ _ _ _ _ _ H1 H2 H3 H4).
  unfold verdict. rewrite Htest.
  apply maxLeft_inv in H1 as [O1 _]. apply minRight_inv in H2 as [O2 _].
  apply maxLeft_inv in H3 as [O3 _]. apply minRight_inv in H4 as [O4 _].
  split; [by intros -> |]. split.
  - intros Hgt. rewrite Hgt. split; [| done].
    rewrite num_gt_not_le in Hgt |- * by done.
    apply negb_false_iff in Hgt. rewrite Hgt in Htest. simpl in Htest.
    by rewrite Htest.
  - intros left' right'. destruct (num_gt max1 min2); intros [= <- <-]; auto.
Qed.

Lemma C8_narrowing_witness :
  (num_gt NegInf PosInf = true ->
   iteration [1] [2] 1 1 0 1 = Ok (Narrow 0 (partition1 0 1 - 1))) /\
  (num_gt NegInf PosInf = false ->
   num_gt (of_int 2) (of_int 1) = true /\
   iteration [1] [2] 1 1 0 1 = Ok (Narrow (partition1 0 1 + 1) 1)) /\
  (forall left' right',
     iteration [1] [2] 1 1 0 1 = Ok (Narrow left' right') ->
     (left' = 0 /\ right' = partition1 0 1 - 1) \/
     (left' = partition1 0 1 + 1 /\ right' = 1)).
Proof.
  apply (C8_narrowing [1] [2] 1 1 0 1 NegInf (of_int 1) (of_int 2) PosInf);
    reflexivity.
Defined.

(** C9. The values on the boundary inputs of the specification. *)
Theorem C9_boundary_inputs :
  returns (findMedianSortedArrays [] [2; 3; 4]) (Plain (Int 3)) /\
  returns (findMedianSortedArrays [] [1; 2]) (Finite (3 # 2)) /\
  returns (findMedianSortedArrays [1] [2]) (Finite (3 # 2)) /\
  returns (findMedianSortedArrays [1; 3] [2]) (Plain (Int 2)) /\
  returns (findMedianSortedArrays [1; 2] [3; 4]) (Finite (5 # 2)) /\
  returns (findMedianSortedArrays [1; 1] [1; 1]) (Plain (Int 1)).
Proof.
  unfold returns. repeat split; eexists; (split; [vm_compute; reflexivity |]);
    reflexivity.
Qed.

(** C10. For ascending inputs, not both empty, with an odd combined length,
    the value returned is an element of one of the two inputs. *)
Theorem C10_odd_returns_element (A B : list Z) :
  ascending A = true -> ascending B = true -> ~ (A = [] /\ B = []) ->
  (len A + len B) mod 2 = 1 ->
  exists x, (x ∈ A \/ x ∈ B) /\
    findMedianSortedArrays A B = Ok (Some (Plain (of_int x))).
Proof.
  intros HA%ascending_sorted HB%ascending_sorted Hne%not_both_empty Hodd.
  destruct (shorter_first A B) as [nums1 nums2] eqn:Hsf.
  destruct (findMedian_at_cut A B nums1 nums2 Hsf) as (p & Hp & _ & _ & Hret).
  apply shorter_first_spec in Hsf as [Hle Hcases].
  assert (Hs : sorted nums1 /\ sorted nums2 /\
               len nums1 + len nums2 = len A + len B /\
               forall x, x ∈ nums1 \/ x ∈ nums2 -> x ∈ A \/ x ∈ B).
  { destruct Hcases as [[-> ->] | [-> ->]]; repeat split; try done;
      [lia | tauto]. }
  destruct Hs as (Hs1 & Hs2 & Hlen & Hin).
  pose proof (partition2_in_range (len nums1) (len nums2) p) as Hq.
  pose proof (len_nonneg nums1).
  destruct (left_max nums1 nums2 Hs1 Hs2 p
              (partition2 (len nums1) (len nums2) p) Hp)
    as (x & Hx & Hmem & _);
    [lia | unfold partition2; Z.div_mod_to_equations; lia |].
  exists x. split.
  - apply Hin.
    apply elem_of_app in Hmem as [(k & Hk & _)%elem_of_take | (k & Hk & _)%elem_of_take];
      [left | right]; by eapply list_elem_of_lookup_2.
  - rewrite Hret. unfold result_at, returned. rewrite Hlen, Hodd. simpl.
    by rewrite Hx.
Qed.

Lemma C10_odd_returns_element_witness :
  exists x, (x ∈ [1; 3] \/ x ∈ [2]) /\
    findMedianSortedArrays [1; 3] [2] = Ok (Some (Plain (of_int x))).
Proof.
  apply (C10_odd_returns_element [1; 3] [2]);
    [reflexivity | reflexivity | intros [H _]; discriminate H | reflexivity].
Defined.

(** * Further properties of the function *)

(** ** The value at a cut, for lists in any order *)

Lemma nth_elem_of (l : list Z) (i : nat) :
  (i < length l)%nat -> nth i l 0 ∈ l.
Proof.
  intros Hi. destruct (nth_lookup_or_length l i 0) as [Hn | ?]; [| lia].
  by eapply list_elem_of_lookup_2.
Qed.

(** [max(maxLeft X p, maxLeft Y q)] is an element of [X] or of [Y] as soon
    as one of the two cuts is not 0. *)
Lemma left_pick (X Y : list Z) (p q : Z) :
  0 <= p <= len X -> 0 <= q <= len Y -> 0 < p + q ->
  exists v, num_max (left_val X p) (left_val Y q) = of_int v /\
    (v ∈ X \/ v ∈ Y).
Proof.
  unfold left_val, len. intros Hp Hq Hpos.
  pose proof (nth_elem_of X (Z.to_nat (p - 1))) as HinX.
  pose proof (nth_elem_of Y (Z.to_nat (q - 1))) as HinY.
  destruct (p =? 0) eqn:Ep, (q =? 0) eqn:Eq; [lia | | |].
  - eexists. split; [reflexivity |]. right. apply HinY. lia.
  - eexists. split; [reflexivity |]. left. apply HinX. lia.
  - eexists. split; [apply num_max_of_int |].
    destruct (Z.max_spec (nth (Z.to_nat (p - 1)) X 0) (nth (Z.to_nat (q - 1)) Y 0))
      as [[_ ->] | [_ ->]]; [right; apply HinY | left; apply HinX]; lia.
Qed.

(** [min(minRight X p, minRight Y q)] is an element of [X] or of [Y] as soon
    as one of the two cuts is not at the end of its list. *)
Lemma right_pick (X Y : list Z) (p q : Z) :
  0 <= p <= len X -> 0 <= q <= len Y -> p + q < len X + len Y ->
  exists v, num_min (right_val X p) (right_val Y q) = of_int v /\
    (v ∈ X \/ v ∈ Y).
Proof.
  unfold right_val, len. intros Hp Hq Hlt.
  pose proof (nth_elem_of X (Z.to_nat p)) as HinX.
  pose proof (nth_elem_of Y (Z.to_nat q)) as HinY.
  destruct (p =? Z.of_nat (length X)) eqn:Ep,
           (q =? Z.of_nat (length Y)) eqn:Eq; [lia | | |].
  - eexists. split; [reflexivity |]. right. apply HinY. lia.
  - eexists. split; [reflexivity |]. left. apply HinX. lia.
  - eexists. split; [apply num_min_of_int |].
    destruct (Z.min_spec (nth (Z.to_nat p) X 0) (nth (Z.to_nat q) Y 0))
      as [[_ ->] | [_ ->]]; [left; apply HinX | right; apply HinY]; lia.
Qed.

(** The return statement at a cut of two lists that are not both empty: it
    returns an element when the combined length is odd, and halves the sum
    of two elements when it is even. *)
Lemma result_at_picks (nums1 nums2 : list Z) (p : Z) :
  len nums1 <= len nums2 -> 0 < len nums1 + len nums2 ->
  0 <= p <= len nums1 ->
  exists x y, (x ∈ nums1 \/ x ∈ nums2) /\ (y ∈ nums1 \/ y ∈ nums2) /\
    result_at nums1 nums2 p =
      if (len nums1 + len nums2) mod 2 =? 0
      then num_div2 (Int (x + y))
      else Ok (Plain (Int x)).
Proof.
  intros Hle Hne Hp.
  pose proof (partition2_in_range (len nums1) (len nums2) p) as Hq.
  destruct (left_pick nums1 nums2 p (partition2 (len nums1) (len nums2) p))
    as (x & Hx & Hinx);
    [lia | lia | unfold partition2; Z.div_mod_to_equations; lia |].
  unfold result_at.
  destruct ((len nums1 + len nums2) mod 2 =? 0) eqn:Hpar.
  - destruct (right_pick nums1 nums2 p (partition2 (len nums1) (len nums2) p))
      as (y & Hy & Hiny);
      [lia | lia | unfold partition2; Z.div_mod_to_equations; lia |].
    exists x, y. split_and!; [done | done |]. by apply returned_ints.
  - exists x, x. split_and!; [done | done |]. unfold returned. by rewrite Hx.
Qed.

Lemma swap_elem_of (A B nums1 nums2 : list Z) (x : Z) :
  shorter_first A B = (nums1, nums2) ->
  len nums1 + len nums2 = len A + len B /\
  (x ∈ nums1 \/ x ∈ nums2 -> x ∈ A \/ x ∈ B).
Proof.
  intros [_ [[-> ->] | [-> ->]]]%shorter_first_spec; split; try done;
    [lia | tauto].
Qed.

(** What the call does on two lists that are not both empty, in any order of
    their elements. *)
Lemma findMedian_picks (A B : list Z) :
  0 < len A + len B ->
  exists x y, (x ∈ A \/ x ∈ B) /\ (y ∈ A \/ y ∈ B) /\
    findMedianSortedArrays A B =
      if (len A + len B) mod 2 =? 0
      then answer (num_div2 (Int (x + y)))
      else Ok (Some (Plain (Int x))).
Proof.
  intros Hne.
  destruct (shorter_first A B) as [nums1 nums2] eqn:Hsf.
  destruct (findMedian_at_cut A B nums1 nums2 Hsf) as (p & Hp & _ & _ & Hret).
  pose proof (shorter_first_spec _ _ _ _ Hsf) as [Hle _].
  pose proof (swap_elem_of A B nums1 nums2 0 Hsf) as [Hlen _].
  destruct (result_at_picks nums1 nums2 p) as (x & y & Hx & Hy & Hval);
    [lia .. |].
  exists x, y. rewrite Hret, Hval, Hlen.
  split; [by apply (swap_elem_of A B nums1 nums2 x Hsf) |].
  split; [by apply (swap_elem_of A B nums1 nums2 y Hsf) |].
  destruct ((len A + len B) mod 2 =? 0); reflexivity.
Qed.

(** X1. For any two lists of ints, in any order of their elements, the call
    never leaves the loop without a [return] and never raises [IndexError]:
    it returns a number, or, only when the combined length is even, it raises
    [OverflowError]. *)
Theorem X1_value_or_overflow (A B : list Z) :
  (exists v, findMedianSortedArrays A B = Ok (Some v)) \/
  ((len A + len B) mod 2 = 0 /\
   findMedianSortedArrays A B = Raise OverflowError).
Proof.
  destruct (shorter_first A B) as [nums1 nums2] eqn:Hsf.
  destruct (findMedian_at_cut A B nums1 nums2 Hsf) as (p & _ & _ & _ & ->).
  pose proof (swap_elem_of A B nums1 nums2 0 Hsf) as [Hlen _].
  destruct (result_at nums1 nums2 p) as [v | e] eqn:Hres.
  - left. by exists v.
  - right. apply returned_raise in Hres as [Heven ->].
    split; [| done]. rewrite <- Hlen. by apply Z.eqb_eq.
Qed.

(** X2. For any two lists of ints that are not both empty, sorted or not,
    there are elements [x] and [y] of the lists such that the call returns
    [x] when the combined length is odd, and halves [x + y] by [/ 2] when it
    is even: the exact mean for [|x + y| <= 2 ** 53], a float within
    [|x + y| / 2 ** 54] of it below [2 ** 1025 - 2 ** 971], and
    [OverflowError] from there on. *)
Theorem X2_value_from_elements (A B : list Z) :
  ~ (A = [] /\ B = []) ->
  exists x y, (x ∈ A \/ x ∈ B) /\ (y ∈ A \/ y ∈ B) /\
    ((len A + len B) mod 2 = 1 ->
     findMedianSortedArrays A B = Ok (Some (Plain (Int x)))) /\
    ((len A + len B) mod 2 = 0 ->
     halves_to (x + y) (findMedianSortedArrays A B)).
Proof.
  intros Hne%not_both_empty.
  destruct (findMedian_picks A B Hne) as (x & y & Hx & Hy & ->).
  exists x, y. split_and!; [done | done | |].
  - by intros ->.
  - intros ->. apply num_div2_halves.
Qed.

Lemma X2_value_from_elements_witness :
  exists x y, (x ∈ [7; 1] \/ x ∈ [4; 0]) /\ (y ∈ [7; 1] \/ y ∈ [4; 0]) /\
    ((len [7; 1] + len [4; 0]) mod 2 = 1 ->
     findMedianSortedArrays [7; 1] [4; 0] = Ok (Some (Plain (Int x)))) /\
    ((len [7; 1] + len [4; 0]) mod 2 = 0 ->
     halves_to (x + y) (findMedianSortedArrays [7; 1] [4; 0])).
Proof.
  apply (X2_value_from_elements [7; 1] [4; 0]). intros [H _]. discriminate H.
Defined.

(** X3. The call returns NaN exactly when both lists are empty. *)
Theorem X3_nan_iff_both_empty (A B : list Z) :
  findMedianSortedArrays A B = Ok (Some (Plain NaN)) <-> A = [] /\ B = [].
Proof.
  split.
  - intros Hnan.
    destruct (decide (A = [] /\ B = [])) as [? | Hne%not_both_empty]; [done |].
    exfalso.
    destruct (findMedian_picks A B Hne) as (x & y & _ & _ & Hret).
    rewrite Hret in Hnan. destruct (_ =? 0); [| done].
    unfold answer, num_div2 in Hnan. by destruct (_ <? _).
  - intros [-> ->]. vm_compute. reflexivity.
Qed.

(** ** Bounds on the value *)

Lemma half_between (lo hi x y : Z) :
  lo <= x <= hi -> lo <= y <= hi ->
  (inject_Z lo <= inject_Z (x + y) / 2 <= inject_Z hi)%Q.
Proof.
  intros Hx Hy. unfold Qle. simpl. lia.
Qed.

(** X4. For any two lists of ints that are not both empty, sorted or not,
    whose elements lie between [lo] and [hi] with
    [-2 ** 52 <= lo] and [hi <= 2 ** 52], the call returns a number that lies
    between [lo] and [hi]. *)
Theorem X4_value_between_bounds (A B : list Z) (lo hi : Z) :
  ~ (A = [] /\ B = []) ->
  (forall x, x ∈ A \/ x ∈ B -> lo <= x <= hi) ->
  - 2 ^ 52 <= lo -> hi <= 2 ^ 52 ->
  exists v q, findMedianSortedArrays A B = Ok (Some v) /\
    value_is v q = true /\ (inject_Z lo <= q <= inject_Z hi)%Q.
Proof.
  intros Hne%not_both_empty Hbounds Hlo Hhi.
  destruct (findMedian_picks A B Hne) as (x & y & Hx%Hbounds & Hy%Hbounds & ->).
  destruct (_ =? 0).
  - destruct (num_div2_halves (x + y)) as (Hexact & _).
    rewrite Hexact by (pow2 52; pow2 53; lia).
    eexists _, _. split; [done |]. split; [by apply Qeq_bool_iff |].
    by apply half_between.
  - exists (Plain (Int x)), (inject_Z x).
    split; [done |]. split; [by apply Qeq_bool_iff |].
    split; rewrite <- Zle_Qle; lia.
Qed.

Lemma X4_value_between_bounds_witness :
  exists v q, findMedianSortedArrays [1; 3] [2; 9] = Ok (Some v) /\
    value_is v q = true /\ (inject_Z 1 <= q <= inject_Z 9)%Q.
Proof.
  apply (X4_value_between_bounds [1; 3] [2; 9] 1 9).
  - intros [H _]. discriminate H.
  - intros x [Hx | Hx]; repeat (apply elem_of_cons in Hx as [-> | Hx]; [lia |]);
      by apply elem_of_nil in Hx.
  - vm_compute. discriminate.
  - vm_compute. discriminate.
Defined.

(** ** The number of passes *)

(** After [k] passes the range is at most the [2 ^ k]-th part of the range
    the loop starts with. *)
Lemma width_halves (nums1 nums2 : list Z) (m n : Z) (k : nat) (left right : Z) :
  0 <= m ->
  reachable_after nums1 nums2 m n k left right ->
  0 <= right - left + 1 /\ (right - left + 1) * 2 ^ Z.of_nat k <= m + 1.
Proof.
  intros Hm. induction 1 as [| k left right left' right' _ IH Hle Hit].
  { simpl. lia. }
  destruct IH as [_ IH].
  rewrite Nat2Z.inj_succ, Z.pow_succ_r by lia.
  assert (0 < 2 ^ Z.of_nat k) by (apply Z.pow_pos_nonneg; lia).
  assert (0 <= right' - left' + 1 /\ 2 * (right' - left' + 1) <= right - left + 1)
    as [Hpos Hhalf].
  { destruct (iteration_Narrow_inv _ _ _ _ _ _ _ _ Hit) as [[-> ->] | [-> ->]];
      unfold partition1; Z.div_mod_to_equations; lia. }
  split; [done | nia].
Qed.

(** X5. The pass that follows [k] earlier passes is made only if
    [2 ^ k <= min(len A, len B) + 1]: the loop makes at most
    [log2(min(len A, len B) + 1) + 1] passes, for any two lists. *)
Theorem X5_logarithmic_passes
    (A B nums1 nums2 : list Z) (k : nat) (left right : Z) :
  shorter_first A B = (nums1, nums2) ->
  reachable_after nums1 nums2 (len nums1) (len nums2) k left right ->
  left <= right ->
  2 ^ Z.of_nat k <= Z.min (len A) (len B) + 1 /\
  Z.of_nat k <= Z.log2 (Z.min (len A) (len B) + 1).
Proof.
  intros Hsf Hreach Hlr.
  pose proof (len_nonneg nums1) as Hm.
  apply width_halves in Hreach as [_ Hw]; [| done].
  assert (0 < 2 ^ Z.of_nat k) by (apply Z.pow_pos_nonneg; lia).
  assert (Hmin : len nums1 = Z.min (len A) (len B)).
  { apply shorter_first_spec in Hsf as [? [[-> ->] | [-> ->]]]; lia. }
  rewrite <- Hmin.
  assert (Hpow : 2 ^ Z.of_nat k <= len nums1 + 1) by nia.
  split; [done |]. apply Z.log2_le_pow2; lia.
Qed.

Lemma X5_logarithmic_passes_witness :
  2 ^ Z.of_nat 1 <= Z.min (len [1; 3]) (len [2]) + 1 /\
  Z.of_nat 1 <= Z.log2 (Z.min (len [1; 3]) (len [2]) + 1).
Proof.
  apply (X5_logarithmic_passes [1; 3] [2] [2] [1; 3] 1 1 1);
    [reflexivity | | lia].
  apply (after_next [2] [1; 3] (len [2]) (len [1; 3]) 0 0 1 1 1);
    [apply after_start | lia | reflexivity].
Defined.

(** ** Passes that start anywhere inside the range *)

(** X6. On ascending lists, the shorter one first and not both empty, a pass
    that returns a value gives the median of the merge, taken the way Python
    computes it, whatever range inside [[0, m]] it is made with: the value
    does not depend on which cut the search arrives at.  It equals the median
    whenever the combined length is odd or every element is at most
    [2 ** 52] in magnitude. *)
Theorem X6_returning_pass_gives_median
    (nums1 nums2 : list Z) (left right : Z) (v : value) :
  ascending nums1 = true -> ascending nums2 = true ->
  len nums1 <= len nums2 -> ~ (nums1 = [] /\ nums2 = []) ->
  0 <= left -> left <= right -> right <= len nums1 ->
  iteration nums1 nums2 (len nums1) (len nums2) left right = Ok (Return v) ->
  python_median (merge nums1 nums2) (Ok (Some v)) /\
  exists q, merged_median nums1 nums2 = Some q /\
    ((len nums1 + len nums2) mod 2 = 1 \/
     (forall x, x ∈ nums1 \/ x ∈ nums2 -> Z.abs x <= 2 ^ 52) ->
     value_is v q = true).
Proof.
  intros H1%ascending_sorted H2%ascending_sorted Hle Hne%not_both_empty
    H0 Hlr Hr Hit.
  pose proof (partition1_between _ _ Hlr) as Hp.
  rewrite iteration_at in Hit by done. unfold verdict in Hit.
  destruct (num_le (left_val nums1 (partition1 left right)) _) eqn:E1;
    [| by destruct (num_gt _ _)].
  destruct (num_le (left_val nums2 _) _) eqn:E2; [| by destruct (num_gt _ _)].
  simpl in Hit. fold (result_at nums1 nums2 (partition1 left right)) in Hit.
  assert (Hans : answer (result_at nums1 nums2 (partition1 left right))
                 = Ok (Some v)).
  { unfold answer. destruct (result_at _ _ _); [| done].
    cbn in Hit |- *. congruence. }
  rewrite (median_at_cut nums1 nums2 (merge nums1 nums2)) in Hans;
    try done; [| by apply merge_sorted | apply merge_perm | lia].
  assert (HM : merge nums1 nums2 <> []).
  { intros E. pose proof (merge_length nums1 nums2) as Hlen. rewrite E in Hlen.
    simpl in Hlen. lia. }
  pose proof (middle_outcome_python _ HM) as Hpy. rewrite Hans in Hpy.
  split; [done |].
  destruct (python_median_middle _ _ Hpy) as (q & Hq & Hexact).
  exists q. split; [done |].
  intros Hcase.
  destruct Hexact as (v' & [= <-] & ?); [| done].
  destruct Hcase as [Hodd | Hsmall].
  - left. apply odd_length. by rewrite merge_length.
  - right. intros x Hx. apply Hsmall.
    rewrite merge_perm in Hx. by apply elem_of_app in Hx.
Qed.

Lemma X6_returning_pass_gives_median_witness :
  python_median (merge [2; 2] [1; 2; 5]) (Ok (Some (Plain (of_int 2)))) /\
  exists q, merged_median [2; 2] [1; 2; 5] = Some q /\
    ((len [2; 2] + len [1; 2; 5]) mod 2 = 1 \/
     (forall x, x ∈ [2; 2] \/ x ∈ [1; 2; 5] -> Z.abs x <= 2 ^ 52) ->
     value_is (Plain (of_int 2)) q = true).
Proof.
  apply (X6_returning_pass_gives_median [2; 2] [1; 2; 5] 1 2 (Plain (of_int 2)));
    [reflexivity | reflexivity | vm_compute; discriminate
    | intros [H _]; discriminate H | lia | lia | vm_compute; discriminate
    | reflexivity].
Defined.

(** ** What a narrowing pass leaves out *)

Lemma sorted_nth_le (l : list Z) (i j : nat) :
  sorted l -> (i <= j < length l)%nat -> nth i l 0 <= nth j l 0.
Proof.
  intros Hs Hij.
  destruct (nth_lookup_or_length l i 0) as [Hi | ?]; [| lia].
  destruct (nth_lookup_or_length l j 0) as [Hj | ?]; [| lia].
  eapply sorted_lookup_le; [done | exact Hi | exact Hj | lia].
Qed.

(** Moving the cut of [X] down and the cut of [Y] up keeps
    [maxLeft X <= minRight Y]. *)
Lemma cross_mono (X Y : list Z) (p p' q q' : Z) :
  sorted X -> sorted Y ->
  0 <= p <= p' -> p' <= len X -> 0 <= q' <= q -> q <= len Y ->
  num_le (left_val X p') (right_val Y q') = true ->
  num_le (left_val X p) (right_val Y q) = true.
Proof.
  intros HX HY Hp Hp' Hq Hq'. unfold left_val, right_val, len in *.
  destruct (p =? 0) eqn:E0, (q =? Z.of_nat (length Y)) eqn:E1; try done.
  destruct (p' =? 0) eqn:E2; [lia |].
  destruct (q' =? Z.of_nat (length Y)) eqn:E3; [lia |].
  rewrite !num_le_of_int. intros Hle%Z.leb_le. apply Z.leb_le.
  pose proof (sorted_nth_le X (Z.to_nat (p - 1)) (Z.to_nat (p' - 1)) HX).
  pose proof (sorted_nth_le Y (Z.to_nat q') (Z.to_nat q) HY).
  lia.
Qed.

(** X7. On ascending lists, the shorter one first: when [max1 > min2] at a
    cut, the same holds and the test fails at every cut above it, and when
    [max2 > min1] at a cut, the same holds and the test fails at every cut
    below it.  The range a narrowing pass drops has no cut that passes the
    test. *)
Theorem X7_dropped_cuts_fail (nums1 nums2 : list Z) (p p' : Z) :
  ascending nums1 = true -> ascending nums2 = true ->
  len nums1 <= len nums2 ->
  0 <= p <= len nums1 -> 0 <= p' <= len nums1 ->
  (overshoots nums1 nums2 p -> p <= p' ->
   overshoots nums1 nums2 p' /\ ~ passes_test nums1 nums2 p') /\
  (undershoots nums1 nums2 p -> p' <= p ->
   undershoots nums1 nums2 p' /\ ~ passes_test nums1 nums2 p').
Proof.
  intros H1%ascending_sorted H2%ascending_sorted Hle Hp Hp'.
  pose proof (cut2_in_range nums1 nums2 Hle p Hp) as Hq.
  pose proof (cut2_in_range nums1 nums2 Hle p' Hp') as Hq'.
  rewrite !overshoots_iff, !undershoots_iff, !passes_test_iff by done.
  split; intros Hbad Hpp'.
  - assert (~ good_left nums1 nums2 p'); [| tauto].
    intros Hgood. apply Hbad. unfold good_left in *.
    eapply (cross_mono nums1 nums2 p p'
              (partition2 (len nums1) (len nums2) p)
              (partition2 (len nums1) (len nums2) p'));
      try done; unfold partition2 in *; lia.
  - assert (~ good_right nums1 nums2 p'); [| tauto].
    intros Hgood. apply Hbad. unfold good_right in *.
    eapply (cross_mono nums2 nums1
              (partition2 (len nums1) (len nums2) p)
              (partition2 (len nums1) (len nums2) p') p p');
      try done; unfold partition2 in *; lia.
Qed.

Lemma X7_dropped_cuts_fail_witness :
  (overshoots [5; 6] [1; 2; 3] 1 -> 1 <= 2 ->
   overshoots [5; 6] [1; 2; 3] 2 /\ ~ passes_test [5; 6] [1; 2; 3] 2) /\
  (undershoots [5; 6] [1; 2; 3] 1 -> 2 <= 1 ->
   undershoots [5; 6] [1; 2; 3] 2 /\ ~ passes_test [5; 6] [1; 2; 3] 2).
Proof.
  apply (X7_dropped_cuts_fail [5; 6] [1; 2; 3] 1 2);
    [reflexivity | reflexivity | vm_compute; discriminate
    | vm_compute; split; discriminate | vm_compute; split; discriminate].
Defined.

(** ** One list empty *)

(** The return statement at the only cut of an empty first list takes the
    middle of the second list by position. *)
Lemma result_at_empty (B : list Z) :
  B <> [] -> answer (result_at [] B 0) = middle_outcome B.
Proof.
  intros HB.
  assert (Hlen : (0 < length B)%nat) by (destruct B; [done | simpl; lia]).
  unfold middle_outcome, result_at, returned, left_val, right_val, partition2, len.
  change (Z.of_nat (length (@nil Z))) with 0. simpl (0 =? 0).
  rewrite Z.add_0_l, Z.sub_0_r.
  destruct (Nat.even (length B)) eqn:Heven.
  - apply Nat.even_spec in Heven as [a Ha].
    assert (Hq : (Z.of_nat (length B) + 1) / 2 = Z.of_nat a)
      by (rewrite Ha; Z.div_mod_to_equations; lia).
    assert (Hmod : (Z.of_nat (length B) mod 2 =? 0) = true)
      by (rewrite Ha; Z.div_mod_to_equations; lia).
    rewrite Hq, Hmod, Ha, half_even. clear Hq Hmod.
    destruct (Z.of_nat a =? 0) eqn:E0; [lia |].
    destruct (Z.of_nat a =? Z.of_nat (2 * a)) eqn:E1;
      [apply Z.eqb_eq in E1; lia |].
    replace (Z.to_nat (Z.of_nat a - 1)) with (a - 1)%nat by lia.
    rewrite Nat2Z.id, !nth_lookup_lt by lia. reflexivity.
  - apply (f_equal negb) in Heven. rewrite Nat.negb_even in Heven.
    apply Nat.odd_spec in Heven as [a Ha].
    assert (Hq : (Z.of_nat (length B) + 1) / 2 = Z.of_nat a + 1)
      by (rewrite Ha; Z.div_mod_to_equations; lia).
    assert (Hmod : (Z.of_nat (length B) mod 2 =? 0) = false)
      by (rewrite Ha; Z.div_mod_to_equations; lia).
    rewrite Hq, Hmod, Ha, half_odd. clear Hq Hmod.
    destruct (Z.of_nat a + 1 =? 0) eqn:E0; [lia |].
    replace (Z.to_nat (Z.of_nat a + 1 - 1)) with a by lia.
    rewrite nth_lookup_lt by lia. reflexivity.
Qed.

(** X8. When one of the two lists is empty and the other is not, the call
    has the same outcome in either order of the arguments: it takes the
    middle of the other list by position, whether or not that list is in
    ascending order, returning its middle element when the length is odd and
    halving the sum of its two middle elements by [/ 2] when it is even.  The
    value equals the exact middle whenever the length is odd or every element
    is at most [2 ** 52] in magnitude. *)
Theorem X8_one_list_empty (B : list Z) :
  B <> [] ->
  findMedianSortedArrays B [] = findMedianSortedArrays [] B /\
  python_median B (findMedianSortedArrays [] B) /\
  exists q, middle B = Some q /\
    (Z.of_nat (length B) mod 2 = 1 \/
     (forall x, x ∈ B -> Z.abs x <= 2 ^ 52) ->
     returns_exactly (findMedianSortedArrays [] B) q).
Proof.
  intros HB.
  assert (Hlen : 0 < len B) by (unfold len; destruct B; [done | simpl; lia]).
  assert (Hcut : forall X Y, shorter_first X Y = ([], B) ->
            findMedianSortedArrays X Y = middle_outcome B).
  { intros X Y Hsf.
    destruct (findMedian_at_cut X Y [] B Hsf) as (p & Hp & _ & _ & Hret).
    replace p with 0 in Hret by (change (len []) with 0 in Hp; lia).
    by rewrite Hret, result_at_empty. }
  assert (H1 : findMedianSortedArrays [] B = middle_outcome B).
  { apply Hcut. unfold shorter_first. change (len []) with 0.
    destruct (0 >? len B) eqn:E; [lia | done]. }
  assert (H2 : findMedianSortedArrays B [] = middle_outcome B).
  { apply Hcut. unfold shorter_first. change (len []) with 0.
    destruct (len B >? 0) eqn:E; [done | lia]. }
  rewrite H1, H2. split; [done |].
  pose proof (middle_outcome_python B HB) as Hpy. split; [done |].
  destruct (python_median_middle _ _ Hpy) as (q & Hq & Hexact).
  exists q. split; [done |].
  intros [Hodd | Hsmall]; apply Hexact; [left; by apply odd_length | by right].
Qed.

Lemma X8_one_list_empty_witness :
  findMedianSortedArrays [4; 1; 3; 0] [] = findMedianSortedArrays [] [4; 1; 3; 0] /\
  python_median [4; 1; 3; 0] (findMedianSortedArrays [] [4; 1; 3; 0]) /\
  exists q, middle [4; 1; 3; 0] = Some q /\
    (Z.of_nat (length [4; 1; 3; 0]) mod 2 = 1 \/
     (forall x, x ∈ [4; 1; 3; 0] -> Z.abs x <= 2 ^ 52) ->
     returns_exactly (findMedianSortedArrays [] [4; 1; 3; 0]) q).
Proof. apply (X8_one_list_empty [4; 1; 3; 0]). discriminate. Defined.
